(** * language_models.py: noise-injected generation and forward drivers

    A shallow embedding of [src/lib/language_models.py].  The module wraps a
    causal language model behind six driver classes ([LLM], [BatchLLM],
    [BatchLLMForward], [LLMForward], [LLMForwardMultiprocessing],
    [LLMForwardLight]).  The tensor engine, the tokenizer and the model are
    external collaborators: they enter the development as section variables,
    and every statement about a driver is a statement about how the driver
    orchestrates them. *)

From Stdlib Require Import String Ascii List Arith ZArith Lia Reals Lra.
From stdpp Require Import base option list strings gmap.

Local Open Scope string_scope.
Local Open Scope list_scope.
Local Open Scope nat_scope.

(** ** Python values and control *)

Module Py.

(** The exceptions the drivers can meet.  [except RuntimeError] catches
    [RuntimeError] only; the other classes travel to the caller. *)
Inductive exn : Type :=
| RuntimeError (msg : string)
| IndexError (msg : string)
| ZeroDivisionError
| OtherError (cls msg : string).

Definition is_runtime_error (e : exn) : bool :=
  match e with RuntimeError _ => true | _ => false end.

(** [str(e)] as printed by [print(e)]. *)
Definition str_of (e : exn) : string :=
  match e with
  | RuntimeError m => m
  | IndexError m => m
  | ZeroDivisionError => "integer division or modulo by zero"
  | OtherError _ m => m
  end.

(** The outcome of evaluating a Python expression. *)
Inductive res (A : Type) : Type :=
| Ok (a : A)
| Raise (e : exn).
Arguments Ok {A} a.
Arguments Raise {A} e.

(** Sequencing: an exception skips the rest of the block. *)
#[global] Instance res_ret : MRet res := λ A a, Ok a.
#[global] Instance res_bind : MBind res := λ A B k m,
  match m with Ok a => k a | Raise e => Raise e end.
#[global] Instance res_fmap : FMap res := λ A B f m,
  match m with Ok a => Ok (f a) | Raise e => Raise e end.

(** [needle in hay] on [str]. *)
Fixpoint contains (needle hay : string) : bool :=
  String.prefix needle hay ||
  match hay with
  | EmptyString => false
  | String _ rest => contains needle rest
  end.

(** Truthiness of an optional string: [None] and [''] are falsy. *)
Definition truthy (o : option string) : bool :=
  match o with
  | None => false
  | Some EmptyString => false
  | Some (String _ _) => true
  end.

(** [s[n:]] for [n >= 0]. *)
Fixpoint str_from (n : nat) (s : string) : string :=
  match n, s with
  | 0, _ => s
  | S _, EmptyString => EmptyString
  | S k, String _ rest => str_from k rest
  end.

(** [l[lo:hi]] for [0 <= lo] and [0 <= hi]. *)
Definition slice {A} (lo hi : nat) (l : list A) : list A :=
  take (hi - lo) (drop lo l).

(** [a // b] on non-negative integers. *)
Definition floordiv (a b : nat) : res nat :=
  match b with
  | 0 => Raise ZeroDivisionError
  | S _ => Ok (a / b)
  end.

End Py.

Import Py.

(** ** Construction-time configuration *)

Module Config.

Inductive dtype : Type := float32 | float16 | bfloat16.

(** The three string attributes of the tokenizer that [__init__] reads and
    writes. *)
Record tokenizer : Type := mkTokenizer {
  padding_side : string;
  pad_token : option string;
  unk_token : option string;
  eos_token : option string
}.

Definition set_padding_side (v : string) (t : tokenizer) : tokenizer :=
  mkTokenizer v (pad_token t) (unk_token t) (eos_token t).

Definition set_pad_token (v : option string) (t : tokenizer) : tokenizer :=
  mkTokenizer (padding_side t) v (unk_token t) (eos_token t).

(** The tokenizer block shared, character for character, by the six
    constructors:
<<
    self.tokenizer.padding_side = 'left'
    if 'llama' in tokenizer_path or 'Llama' in tokenizer_path:
        self.tokenizer.pad_token = self.tokenizer.unk_token
    if not self.tokenizer.pad_token:
        self.tokenizer.pad_token = self.tokenizer.eos_token
>> *)
Definition configure_tokenizer (tokenizer_path : string) (t : tokenizer)
  : tokenizer :=
  let t1 := set_padding_side "left" t in
  let t2 :=
    if contains "llama" tokenizer_path || contains "Llama" tokenizer_path
    then set_pad_token (unk_token t1) t1
    else t1 in
  if negb (truthy (pad_token t2))
  then set_pad_token (eos_token t2) t2
  else t2.

(** [torch_dtype] of [LLM.__init__] (line 21). *)
Definition LLM_torch_dtype (model_path : string) : dtype :=
  if contains "vicuna" model_path then float32 else float16.

(** [BatchLLM.__init__]: the same [torch_dtype] (line 139), after which a
    model whose path names llama-2 is converted with [.bfloat16()]
    (lines 148-149). *)
Definition BatchLLM_torch_dtype (model_path : string) : dtype :=
  if contains "vicuna" model_path then float32 else float16.

Definition BatchLLM_model_dtype (model_path : string) : dtype :=
  let loaded := BatchLLM_torch_dtype model_path in
  if contains "llama-2" model_path || contains "Llama-2" model_path
  then bfloat16
  else loaded.

(** [BatchLLMForward], [LLMForward], [LLMForwardMultiprocessing] and
    [LLMForwardLight] (lines 253, 350, 436, 537): both branches of the
    conditional are [torch.float32]. *)
Definition BatchLLMForward_torch_dtype (model_path : string) : dtype :=
  if contains "vicuna" model_path then float32 else float32.

Definition LLMForward_torch_dtype (model_path : string) : dtype :=
  if contains "vicuna" model_path then float32 else float32.

Definition LLMForwardMultiprocessing_torch_dtype (model_path : string)
  : dtype :=
  if contains "vicuna" model_path then float32 else float32.

Definition LLMForwardLight_torch_dtype (model_path : string) : dtype :=
  if contains "vicuna" model_path then float32 else float32.

(** The test of line 38. *)
Definition llama_family (tokenizer_path : string) : bool :=
  contains "llama" tokenizer_path || contains "Llama" tokenizer_path.

(** What the specification's fallback chain describes: an explicit pad
    token first, then the unknown token for a LLaMA family tokenizer, the
    end-of-sequence token otherwise. *)
Definition spec_pad_chain (tokenizer_path : string) (t : tokenizer)
  : option string :=
  if truthy (pad_token t) then pad_token t
  else if contains "llama" tokenizer_path || contains "Llama" tokenizer_path
       then unk_token t
       else eos_token t.

End Config.

(** ** The world the drivers run in *)

Module World.

(** Python list objects are shared by reference: a prompt batch is a
    location in the heap, and [batch.append] updates the object that the
    caller (and every alias of it) also sees. *)
Definition loc := positive.

Record world : Type := mkWorld {
  heap : gmap loc (list string);   (* list objects holding prompts *)
  stdout : list string;            (* lines written by [print] *)
  calls : nat                      (* engine calls made so far *)
}.

(** Statements of a driver body: they change the world and either yield
    a value or raise. *)
Definition M (A : Type) : Type := world → world * res A.

#[global] Instance M_ret : MRet M := λ A a w, (w, Ok a).
#[global] Instance M_bind : MBind M := λ A B k m w,
  match m w with
  | (w', Ok a) => k a w'
  | (w', Raise e) => (w', Raise e)
  end.

Definition lift {A} (r : res A) : M A := λ w, (w, r).

(** [print(line)] *)
Definition print (line : string) : M unit := λ w,
  (mkWorld (heap w) (stdout w ++ [line]) (calls w), Ok ()).

(** Reading the list object at [l] (a location that holds no object
    reads as the empty list; the drivers are only handed live objects). *)
Definition read_list (l : loc) : M (list string) := λ w,
  (w, Ok (heap w !!! l)).

(** [l.append(x)] *)
Definition list_append (l : loc) (x : string) : M unit := λ w,
  (mkWorld (<[l := (heap w !!! l) ++ [x]]> (heap w)) (stdout w) (calls w),
   Ok ()).

(** One call into the model: the engine's answer may depend on how many
    calls came before (sampling, injected noise, device state). *)
Definition engine_call {A} (f : nat → res A) : M A := λ w,
  (mkWorld (heap w) (stdout w) (S (calls w)), f (calls w)).

(** [try: body  except RuntimeError as e: handler(e)] *)
Definition try_except_RuntimeError {A} (body : M A) (handler : exn → M A)
  : M A := λ w,
  match body w with
  | (w', Ok a) => (w', Ok a)
  | (w', Raise e) =>
      if is_runtime_error e then handler e w' else (w', Raise e)
  end.

End World.

Import World.

(** ** Tensors as nested lists *)

Module Torch.

(** A 2-D integer grid ([input_ids], [attention_mask]). *)
Abbreviation ids2 := (list (list nat)).

Definition getitem {A} (l : list A) (i : nat) : res A :=
  match l !! i with
  | Some a => Ok a
  | None => Raise (IndexError "index out of range")
  end.

(** A Python integer used as an index has to fit a C [long]: beyond
    that, torch raises a [RuntimeError] when it unpacks the index, before
    it compares it with the size of the dimension. *)
Definition fits_int64 (idx : Z) : bool :=
  ((- (2 ^ 63) <=? idx) && (idx <? 2 ^ 63))%Z.

(** The place that index [idx] names in a dimension of size [len]:
    indices from 0 count from the front, negative ones from the end. *)
Definition wrap_index (len : nat) (idx : Z) : option nat :=
  if ((0 <=? idx) && (idx <? Z.of_nat len))%Z
  then Some (Z.to_nat idx)
  else if ((- Z.of_nat len <=? idx) && (idx <? 0))%Z
       then Some (Z.to_nat (Z.of_nat len + idx))
       else None.

(** [t[idx]] for a Python integer [idx]. *)
Definition getitem_int {A} (l : list A) (idx : Z) : res A :=
  if fits_int64 idx then
    match wrap_index (length l) idx with
    | Some n => getitem l n
    | None => Raise (IndexError "index out of range")
    end
  else Raise (RuntimeError "Overflow when unpacking long").

(** [t[-1]] *)
Definition getlast {A} (l : list A) : res A :=
  match last l with
  | Some a => Ok a
  | None => Raise (IndexError "index -1 is out of bounds for dimension 0 with size 0")
  end.

(** [torch.cat(ts, axis=0)] *)
Definition cat {A} (ts : list (list A)) : res (list A) :=
  match ts with
  | [] => Raise (RuntimeError "torch.cat(): expected a non-empty list of Tensors")
  | _ :: _ => Ok (concat ts)
  end.

(** [t.repeat(n, 1)] on a 2-D tensor: the rows tiled [n] times. *)
Definition repeat_rows {A} (n : nat) (t : list A) : list A :=
  concat (replicate n t).

(** The index pairs visited by [t[rs, cs]]: the two index vectors are
    broadcast against each other. *)
Definition index_pairs (rs cs : list nat) : res (list (nat * nat)) :=
  if decide (length rs = length cs) then Ok (zip rs cs)
  else match rs, cs with
       | [r], _ => Ok (map (λ c, (r, c)) cs)
       | _, [c] => Ok (map (λ r, (r, c)) rs)
       | _, _ => Raise (IndexError "shape mismatch: indexing tensors could not be broadcast together")
       end.

(** [t[rs, cs]] on a 2-D tensor. *)
Definition gather {A} (t : list (list A)) (rs cs : list nat) : res (list A) :=
  pairs ← index_pairs rs cs;
  mapM (λ rc : nat * nat, row ← getitem t rc.1; getitem row rc.2) pairs.

(** [row[1:] = vals]: the right-hand side has the length of the slot, or
    one element that is broadcast over it. *)
Definition setitem_from1 {A} (row vals : list A) : res (list A) :=
  if decide (length vals = length row - 1) then Ok (take 1 row ++ vals)
  else match vals with
       | [v] => Ok (take 1 row ++ replicate (length row - 1) v)
       | _ => Raise (RuntimeError "The expanded size of the tensor must match the existing size")
       end.

End Torch.

Import Torch.

(** ** The external collaborators *)

Module Engine.

(** The noise directive handed to [generate] or to the forward pass as
    keyword arguments.  [S] is the type of the scale or level. *)
Inductive noise (S : Type) : Type :=
| NoNoise
| NoiseScale (start_noise_idx end_noise_idx : nat) (noise_scale : S)
| NoiseScaleList (start_noise_idx_list end_noise_idx_list : list nat)
                 (noise_scale : S)
| NoiseLevel (start_noise_idx end_noise_idx : nat) (noise_level : S).
Arguments NoNoise {S}.
Arguments NoiseScale {S} _ _ _.
Arguments NoiseScaleList {S} _ _ _.
Arguments NoiseLevel {S} _ _ _.

(** Everything the drivers call but do not implement.  [F] is the type
    of tensor entries (floating point numbers, left abstract).  The
    first argument of [generate] and [forward] is the number of engine
    calls made before this one. *)
Record engine (F S : Type) : Type := mkEngine {
  (* tokenizer(batch, padding=True, truncation=False, return_tensors='pt'):
     input_ids and attention_mask *)
  tokenize : list string → res (ids2 * ids2);
  (* tokenizer.decode(ids, skip_special_tokens=True) *)
  decode : list nat → string;
  (* model.generate(input_ids, attention_mask=, max_new_tokens=, noise) *)
  generate : nat → ids2 → ids2 → nat → noise S → res ids2;
  (* model(input_ids, attention_mask=, noise).logits *)
  forward : nat → ids2 → ids2 → noise S → res (list (list (list F)));
  (* torch.softmax(_, dim=-1) on one vocabulary row *)
  softmax : list F → list F;
  (* the entries of torch.ones_like and torch.zeros *)
  one : F;
  zero : F;
  (* conversion of an entry to dtype=torch.float16 *)
  to_float16 : F → F
}.
Arguments tokenize {F S} _ _.
Arguments decode {F S} _ _.
Arguments generate {F S} _ _ _ _ _ _.
Arguments forward {F S} _ _ _ _ _.
Arguments softmax {F S} _ _.
Arguments one {F S} _.
Arguments zero {F S} _.
Arguments to_float16 {F S} _ _.

End Engine.

Import Engine.

(** What a forward driver hands back: a tensor, or the empty Python list
    of the failure path. *)
Inductive returned (T : Type) : Type :=
| EmptyList
| Tensor (t : T).
Arguments EmptyList {T}.
Arguments Tensor {T} t.

(** ** The drivers *)

Section Drivers.

Context {F S : Type}.
Variable E : engine F S.

Definition log_prefix_generate : string := "cannot generate; error raised : ".
Definition log_prefix_forward : string := "cannot forward; error raised : ".

(** [print(prefix, e)]: the two arguments are joined by one space. *)
Definition print2 (prefix : string) (e : exn) : M unit :=
  print (prefix ++ " " ++ str_of e).

(** *** Generation drivers *)

(** [if original_prompt: batch.append(original_prompt)] *)
Definition append_original_prompt (batch : loc)
    (original_prompt : option string) : M unit :=
  match original_prompt with
  | Some p => if truthy (Some p) then list_append batch p else mret ()
  | None => mret ()
  end.

(** Lines 88-100: decode, then cut the echoed prompt off every row. *)
Definition trim_outputs (batch_input_ids outputs : ids2) : res (list string) :=
  let batch_outputs := map (decode E) outputs in
  let gen_start_idx :=
    map (λ row, String.length (decode E row)) batch_input_ids in
  mapM (λ io : nat * string,
          g ← getitem gen_start_idx io.1; mret (str_from g io.2))
       (zip (seq 0 (length batch_outputs)) batch_outputs).

(** The body common to [LLM.__call__] and [BatchLLM.__call__]; they
    differ in the noise keywords and in the line they print. *)
Definition generation_driver (log_line : exn → M unit) (nz : noise S)
    (batch : loc) (max_new_tokens : nat) (original_prompt : option string)
  : M (list string) :=
  append_original_prompt batch original_prompt;;
  prompts ← read_list batch;
  batch_inputs ← lift (tokenize E prompts);
  let batch_input_ids := batch_inputs.1 in
  let batch_attention_mask := batch_inputs.2 in
  r ← try_except_RuntimeError
        (outputs ← engine_call (λ k, generate E k batch_input_ids
                                  batch_attention_mask max_new_tokens nz);
         mret (inr outputs))
        (λ e, log_line e;; mret (inl []));
  match r with
  | inl early => mret early
  | inr outputs => lift (trim_outputs batch_input_ids outputs)
  end.

(** [LLM.__call__] (lines 50-100) *)
Definition LLM_call (batch : loc) (start_noise_idx end_noise_idx : nat)
    (noise_scale : S) (max_new_tokens : nat)
    (original_prompt : option string) : M (list string) :=
  generation_driver (λ e, print (str_of e))
    (NoiseScale start_noise_idx end_noise_idx noise_scale)
    batch max_new_tokens original_prompt.

(** [BatchLLM.__call__] (lines 170-218) *)
Definition BatchLLM_call (batch : loc)
    (start_noise_idx_list end_noise_idx_list : list nat)
    (noise_scale : S) (max_new_tokens : nat)
    (original_prompt : option string) : M (list string) :=
  generation_driver (print2 log_prefix_generate)
    (NoiseScaleList start_noise_idx_list end_noise_idx_list noise_scale)
    batch max_new_tokens original_prompt.

(** *** Probability extractors *)

Definition ones_like (ids : ids2) : list (list F) :=
  map (map (λ _, one E)) ids.

(** [selected_probs[i, 1:] = prob[range(prob.shape[0]-1), input_ids[1:]]] *)
Definition select_row (prob : list (list F)) (input_ids : list nat)
    (selected_row : list F) : res (list F) :=
  vals ← gather prob (seq 0 (length prob - 1)) (drop 1 input_ids);
  setitem_from1 selected_row vals.

(** Lines 126-127 of [LLM.get_probs]: the inner loop reads
    [input_ids[j+1]] for every [j] in [range(prob.shape[0]-1)] and
    decodes it; the decoded token is not used. *)
Definition decode_walk (prob : list (list F)) (input_ids : list nat)
  : res (list string) :=
  mapM (λ j, t ← getitem input_ids (j + 1); mret (decode E [t]))
       (seq 0 (length prob - 1)).

(** The loop [for i in range(len(batch_input_ids))] of the batch
    extractors; [walk] says whether the decoding loop is present. *)
Fixpoint select_rows (walk : bool) (rows : list nat)
    (batch_input_ids : ids2) (probs : list (list (list F)))
    (selected_probs : list (list F)) : res (list (list F)) :=
  match rows with
  | [] => Ok selected_probs
  | i :: rest =>
      input_ids ← getitem batch_input_ids i;
      prob ← getitem probs i;
      (if walk then decode_walk prob input_ids else mret []);;
      old ← getitem selected_probs i;
      new ← select_row prob input_ids old;
      select_rows walk rest batch_input_ids probs (<[i := new]> selected_probs)
  end.

Definition batch_get_probs (walk : bool) (batch : list string)
  : M (list (list F)) :=
  batch_inputs ← lift (tokenize E batch);
  let batch_input_ids := batch_inputs.1 in
  let batch_attention_mask := batch_inputs.2 in
  logits ← engine_call (λ k, forward E k batch_input_ids
                               batch_attention_mask NoNoise);
  let probs := map (map (softmax E)) logits in
  let selected_probs := ones_like batch_input_ids in
  lift (select_rows walk (seq 0 (length batch_input_ids))
          batch_input_ids probs selected_probs).

(** [LLM.get_probs] (lines 103-132).  Its parameters [start_noise_idx],
    [end_noise_idx] and [original_prompt] are not read by the body and are
    left out. *)
Definition LLM_get_probs (batch : list string) : M (list (list F)) :=
  batch_get_probs true batch.

(** [BatchLLM.get_probs] (lines 221-246); [BatchLLMForward.get_probs]
    (lines 318-343) is the same text. *)
Definition BatchLLM_get_probs (batch : list string) : M (list (list F)) :=
  batch_get_probs false batch.

(** [probs.shape[1]] *)
Definition shape1 {A} (t : list (list A)) : nat :=
  match t with [] => 0 | r :: _ => length r end.

(** [LLMForward.get_probs] (lines 413-429); [LLMForwardLight.get_probs]
    (lines 586-602) is the same text.
<<
    selected_probs[:, 1:] = probs[0, range(probs.shape[1] - 1), input_ids[0, 1:]]
>>
    One vector is read off row 0 and written into every row. *)
Definition LLMForward_get_probs (tokenized_input : ids2 * ids2)
  : M (list (list F)) :=
  let input_ids := tokenized_input.1 in
  let attention_masks := tokenized_input.2 in
  logits ← engine_call (λ k, forward E k input_ids attention_masks NoNoise);
  let probs := map (map (softmax E)) logits in
  let selected_probs := ones_like input_ids in
  lift (probs0 ← getitem probs 0;
        ids0 ← getitem input_ids 0;
        vals ← gather probs0 (seq 0 (shape1 probs - 1)) (drop 1 ids0);
        mapM (λ row, setitem_from1 row vals) selected_probs).

(** *** Answer-choice projector *)

(** [[logits[i][-1, token_idx] for token_idx in answer_token_ids]]: the
    candidate ids are Python integers. *)
Definition last_position_at (logits : list (list (list F))) (i : nat)
    (answer_token_ids : list Z) : res (list F) :=
  mapM (λ token_idx,
          seq_logits ← getitem logits i;
          final ← getlast seq_logits;
          getitem_int final token_idx)
       answer_token_ids.

(** The loop [for i in range(num_rows)] of [_get_answer_choice_logits]. *)
Fixpoint fill_answer_rows (rows : list nat) (logits : list (list (list F)))
    (answer_token_ids : list Z) (answer_choice_logits : list (list F))
  : res (list (list F)) :=
  match rows with
  | [] => Ok answer_choice_logits
  | i :: rest =>
      vals ← last_position_at logits i answer_token_ids;
      fill_answer_rows rest logits answer_token_ids
        (<[i := map (to_float16 E) vals]> answer_choice_logits)
  end.

(** [LLMForwardMultiprocessing._get_answer_choice_logits] (lines 525-530)
    and [LLMForwardLight._get_answer_choice_logits] (lines 604-609), the
    same text. *)
Definition get_answer_choice_logits (logits : list (list (list F)))
    (answer_token_ids : list Z) : res (list (list F)) :=
  let num_rows := length logits in
  let answer_choice_logits :=
    replicate num_rows (replicate (length answer_token_ids) (zero E)) in
  fill_answer_rows (seq 0 num_rows) logits answer_token_ids
    answer_choice_logits.

(** *** Replicated forward drivers *)

(** [rows[i*forward_batch_size:(i+1)*forward_batch_size]] *)
Definition chunk_rows {A} (forward_batch_size : nat) (rows : list A)
    (i : nat) : list A :=
  slice (i * forward_batch_size) ((i + 1) * forward_batch_size) rows.

(** One pass of the chunk loop: the forward call on the rows of chunk
    [i], followed by [post] on its logits. *)
Definition forward_chunk {T} (post : list (list (list F)) → res T)
    (input_ids attention_masks : ids2) (nz : noise S)
    (forward_batch_size i : nat) : M T :=
  logits ← engine_call (λ k,
    forward E k
      (chunk_rows forward_batch_size input_ids i)
      (chunk_rows forward_batch_size attention_masks i)
      nz);
  lift (post logits).

(** The chunk loop with the [try] inside it (lines 394-408, 486-499):
    a [RuntimeError] prints a line and makes the driver return [[]]. *)
Fixpoint guarded_chunks {T} (post : list (list (list F)) → res T)
    (input_ids attention_masks : ids2) (nz : noise S)
    (forward_batch_size : nat) (chunks : list nat) (output_logits : list T)
  : M (returned T + list T) :=
  match chunks with
  | [] => mret (inr output_logits)
  | i :: rest =>
      r ← try_except_RuntimeError
            (t ← forward_chunk post input_ids attention_masks nz
                   forward_batch_size i;
             mret (inr (output_logits ++ [t])))
            (λ e, print2 log_prefix_forward e;; mret (inl EmptyList));
      match r with
      | inl early => mret (inl early)
      | inr acc =>
          guarded_chunks post input_ids attention_masks nz
            forward_batch_size rest acc
      end
  end.

(** The chunk loop without a handler (lines 571-580). *)
Fixpoint bare_chunks {T} (post : list (list (list F)) → res T)
    (input_ids attention_masks : ids2) (nz : noise S)
    (forward_batch_size : nat) (chunks : list nat) (output_logits : list T)
  : M (list T) :=
  match chunks with
  | [] => mret output_logits
  | i :: rest =>
      t ← forward_chunk post input_ids attention_masks nz
            forward_batch_size i;
      bare_chunks post input_ids attention_masks nz forward_batch_size
        rest (output_logits ++ [t])
  end.

(** [range(math.ceil(num_copies // forward_batch_size))] *)
Definition chunk_range (num_copies forward_batch_size : nat)
  : res (list nat) :=
  q ← floordiv num_copies forward_batch_size; mret (seq 0 q).

(** [LLMForward.__call__] (lines 378-410).  The replicas are
    [num_copies] deep copies joined with [torch.cat].  The parameters
    [noise_scale] and [max_new_tokens] of the signature are not read by
    the body and are left out. *)
Definition LLMForward_call (tokenized_input : ids2 * ids2)
    (start_noise_idx end_noise_idx : nat) (num_copies : nat)
    (noise_level : S) (forward_batch_size : nat)
  : M (returned (list (list (list F)))) :=
  let input_id := tokenized_input.1 in
  let attention_mask := tokenized_input.2 in
  input_ids ← lift (cat (replicate num_copies input_id));
  attention_masks ← lift (cat (replicate num_copies attention_mask));
  chunks ← lift (chunk_range num_copies forward_batch_size);
  r ← guarded_chunks Ok input_ids attention_masks
        (NoiseLevel start_noise_idx end_noise_idx noise_level)
        forward_batch_size chunks [];
  match r with
  | inl early => mret early
  | inr output_logits =>
      t ← lift (cat output_logits); mret (Tensor t)
  end.

(** [LLMForwardMultiprocessing.__call__] (lines 466-501): replicas by
    [repeat], projection inside the [try]. *)
Definition LLMForwardMultiprocessing_call (tokenized_input : ids2 * ids2)
    (start_noise_idx end_noise_idx : nat) (answer_token_ids : list Z)
    (num_copies : nat) (noise_level : S) (forward_batch_size : nat)
  : M (returned (list (list F))) :=
  let input_ids := repeat_rows num_copies tokenized_input.1 in
  let attention_masks := repeat_rows num_copies tokenized_input.2 in
  chunks ← lift (chunk_range num_copies forward_batch_size);
  r ← guarded_chunks (λ lg, get_answer_choice_logits lg answer_token_ids)
        input_ids attention_masks
        (NoiseLevel start_noise_idx end_noise_idx noise_level)
        forward_batch_size chunks [];
  match r with
  | inl early => mret early
  | inr output_logits =>
      t ← lift (cat output_logits); mret (Tensor t)
  end.

(** [LLMForwardLight.__call__] (lines 565-583): the same loop with no
    [try] around the forward pass. *)
Definition LLMForwardLight_call (tokenized_input : ids2 * ids2)
    (start_noise_idx end_noise_idx : nat) (answer_token_ids : list Z)
    (num_copies : nat) (noise_level : S) (forward_batch_size : nat)
  : M (returned (list (list F))) :=
  let input_ids := repeat_rows num_copies tokenized_input.1 in
  let attention_masks := repeat_rows num_copies tokenized_input.2 in
  chunks ← lift (chunk_range num_copies forward_batch_size);
  output_logits ←
    bare_chunks (λ lg, get_answer_choice_logits lg answer_token_ids)
      input_ids attention_masks
      (NoiseLevel start_noise_idx end_noise_idx noise_level)
      forward_batch_size chunks [];
  t ← lift (cat output_logits); mret (Tensor t).

(** [BatchLLMForward.__call__] (lines 285-315): the batch steps of the
    generation drivers, then one noise-injected forward pass inside a
    [try]; the logits are returned as they come.  The parameter
    [max_new_tokens] of the signature is not read by the body and is left
    out. *)
Definition BatchLLMForward_call (batch : loc)
    (start_noise_idx_list end_noise_idx_list : list nat)
    (noise_scale : S) (original_prompt : option string)
  : M (returned (list (list (list F)))) :=
  append_original_prompt batch original_prompt;;
  prompts ← read_list batch;
  batch_inputs ← lift (tokenize E prompts);
  let batch_input_ids := batch_inputs.1 in
  let batch_attention_mask := batch_inputs.2 in
  r ← try_except_RuntimeError
        (logits ← engine_call (λ k, forward E k batch_input_ids
                                 batch_attention_mask
                                 (NoiseScaleList start_noise_idx_list
                                    end_noise_idx_list noise_scale));
         mret (inr logits))
        (λ e, print2 log_prefix_forward e;; mret (inl EmptyList));
  match r with
  | inl early => mret early
  | inr logits => mret (Tensor logits)
  end.

End Drivers.

(** ** Properties of the returned grids *)

Section Alignment.

Context {F S : Type}.
Variable E : engine F S.

(** The logits can score the batch: one logits row per sequence, one
    distribution per position, and every realized token indexes the
    distribution of the position before it. *)
Definition scorable_row (row : list nat) (lg : list (list F)) : bool :=
  bool_decide (length lg = length row) &&
  forallb (λ jt : list F * nat, bool_decide (jt.2 < length (softmax E jt.1)))
          (zip lg (drop 1 row)).

Definition scorable (ids : ids2) (logits : list (list (list F))) : bool :=
  bool_decide (length logits = length ids) &&
  forallb (λ rl : list nat * list (list F), scorable_row rl.1 rl.2)
          (zip ids logits).

(** Every row of a tensor has the length of the first one. *)
Definition rectangular {A} (t : list (list A)) : bool :=
  forallb (λ r, bool_decide (length r = shape1 t)) t.

(** [probs[i, j, v]] where [probs] is the softmax of [logits]. *)
Definition prob_at (logits : list (list (list F))) (i j v : nat) : option F :=
  lg ← logits !! i; dist ← lg !! j; softmax E dist !! v.

(** The probability that position [jt.1] of one sequence gives to
    token [jt.2]. *)
Definition scored (lg : list (list F)) (jt : nat * nat) : F :=
  default (one E) (dist ← lg !! jt.1; softmax E dist !! jt.2).

(** A row of the grid once it is filled from the logits [lg] and the
    tokens [src_row]: the first entry of [old] stays, the entries after
    it are the probabilities of the tokens from position 1 on. *)
Definition filled_row (src_row : list nat) (lg : list (list F))
    (old : list F) : list F :=
  take 1 old ++ map (scored lg) (zip (seq 0 (length lg - 1)) (drop 1 src_row)).

(** The two ways a row of the grid finds the row it is scored against:
    itself, or row 0. *)
Definition own_row (i : nat) : nat := i.
Definition row_0 (i : nat) : nat := 0.

(** [sp] has the shape of [ids]; its column 0 is 1; at column [j >= 1]
    row [i] holds the probability given at position [j-1] of row
    [src i] to the token at position [j] of row [src i]. *)
Definition aligned_with (src : nat → nat) (ids : ids2)
    (logits : list (list (list F))) (sp : list (list F)) : Prop :=
  length sp = length ids ∧
  ∀ i row, ids !! i = Some row →
    ∃ sprow, sp !! i = Some sprow ∧
      length sprow = length row ∧
      (0 < length row → sprow !! 0 = Some (one E)) ∧
      ∀ j, 1 ≤ j → j < length row →
        ∃ srow tok p, ids !! src i = Some srow ∧
          srow !! j = Some tok ∧
          prob_at logits (src i) (j - 1) tok = Some p ∧
          sprow !! j = Some p.

(** The continuation of one row: the decoded output without the decoded
    input in front of it. *)
Definition continuation (row out : list nat) : string :=
  str_from (String.length (decode E row)) (decode E out).

(** A handler line that only prints. *)
Definition prints (log_line : exn → M unit) (text : exn → string) : Prop :=
  ∀ e w, log_line e w = print (text e) w.

(** [logits[i][-1, t]] when it exists. *)
Definition last_logit (logits : list (list (list F))) (i : nat) (t : Z)
  : option F :=
  sq ← logits !! i; final ← last sq;
  n ← wrap_index (length final) t; final !! n.

(** Row [i] as the specification describes it: the last-position logit
    of sequence [i] at each candidate id, in the order given, stored as
    float16. *)
Definition spec_answer_row (logits : list (list (list F)))
    (answer_token_ids : list Z) (i : nat) : list F :=
  map (λ t, to_float16 E (default (zero E) (last_logit logits i t)))
      answer_token_ids.

(** The world [k] engine calls later, nothing else changed. *)
Definition after_calls (w : world) (k : nat) : world :=
  mkWorld (heap w) (stdout w) (calls w + k).

(** What the forward pass answers on the chunks of the list, chunk [i]
    being met at engine call [first_call + i]. *)
Definition chunk_logits (input_ids attention_masks : ids2) (nz : noise S)
    (forward_batch_size first_call : nat) (chunks : list nat)
  : res (list (list (list (list F)))) :=
  mapM (λ i, forward E (first_call + i)
               (chunk_rows forward_batch_size input_ids i)
               (chunk_rows forward_batch_size attention_masks i) nz)
       chunks.

(** The forward pass answered every chunk with one logits row per input
    row. *)
Definition rows_kept (input_ids : ids2) (forward_batch_size : nat)
    (chunks : list nat) (lgs : list (list (list (list F)))) : bool :=
  forallb (λ il : nat * list (list (list F)),
             bool_decide (length il.2
                          = length (chunk_rows forward_batch_size
                                      input_ids il.1)))
          (zip chunks lgs).

(** Index [t] fits a C [long] and names a place in a dimension of size
    [len]. *)
Definition covers (len : nat) (t : Z) : bool :=
  fits_int64 t && bool_decide (is_Some (wrap_index len t)).

(** The last position of every sequence covers every candidate id. *)
Definition projectable (logits : list (list (list F)))
    (answer_token_ids : list Z) : bool :=
  forallb (λ sq : list (list F),
             match last sq with
             | Some final => forallb (covers (length final)) answer_token_ids
             | None => false
             end)
          logits.

(** What the projection can raise: an [IndexError] of an index out of
    range, or the [RuntimeError] of a candidate id that does not fit a
    signed 64-bit integer. *)
Definition projection_error (answer_token_ids : list Z) (e : exn) : Prop :=
  (∃ msg, e = IndexError msg) ∨
  (e = RuntimeError "Overflow when unpacking long" ∧
   ∃ t, t ∈ answer_token_ids ∧ fits_int64 t = false).

End Alignment.

(** ** Concrete engines *)

Module Toy.

(** A character-level tokenizer: token 0 is the pad token, a character
    with code [c] is token [c + 1]. *)
Definition token_of (c : ascii) : nat := S (nat_of_ascii c).

Definition encode1 (s : string) : list nat :=
  map token_of (list_ascii_of_string s).

Definition width (rows : list (list nat)) : nat :=
  foldr Nat.max 0 (map length rows).

Definition tokenize (batch : list string) : res (ids2 * ids2) :=
  let rows := map encode1 batch in
  let n := width rows in
  Ok (map (λ r, replicate (n - length r) 0 ++ r) rows,
      map (λ r, replicate (n - length r) 0 ++ replicate (length r) 1) rows).

Definition decode (ids : list nat) : string :=
  string_of_list_ascii
    (omap (λ t, match t with 0 => None | S c => Some (ascii_of_nat c) end)
          ids).

(** Generation echoes the row and adds one exclamation mark. *)
Definition generate (k : nat) (ids mask : ids2) (max_new_tokens : nat)
    (nz : noise nat) : res ids2 :=
  Ok (map (λ row, row ++ [token_of "!"%char]) ids).

(** Logits with a vocabulary of [vocab] entries: entry [v] at position
    [j] of row [i] of call [k] is [k + i + j + v]. *)
Definition forward (vocab : nat) (k : nat) (ids mask : ids2)
    (nz : noise nat) : res (list (list (list nat))) :=
  Ok (imap (λ i row, imap (λ j _, map (λ v, k + i + j + v) (seq 0 vocab)) row)
           ids).

Definition out_of_memory : exn := RuntimeError "CUDA out of memory".

(** A generate call that always fails. *)
Definition generate_fails (k : nat) (ids mask : ids2) (max_new_tokens : nat)
    (nz : noise nat) : res ids2 :=
  Raise out_of_memory.

(** A forward pass that fails from call [bad] on. *)
Definition forward_fails_from (bad vocab : nat) (k : nat) (ids mask : ids2)
    (nz : noise nat) : res (list (list (list nat))) :=
  if decide (bad ≤ k) then Raise out_of_memory else forward vocab k ids mask nz.

Definition engine_of
    (gen : nat → ids2 → ids2 → nat → noise nat → res ids2)
    (fwd : nat → ids2 → ids2 → noise nat → res (list (list (list nat))))
  : engine nat nat :=
  mkEngine nat nat tokenize decode gen fwd (λ l, l) 1 0 (λ x, x).

Definition sound : engine nat nat := engine_of generate (forward 128).
Definition no_generation : engine nat nat :=
  engine_of generate_fails (forward 128).
Definition no_forward (bad : nat) : engine nat nat :=
  engine_of generate (forward_fails_from bad 128).

(** A world with one prompt batch at location 1. *)
Definition world_of (batch : list string) : world :=
  mkWorld {[ 1%positive := batch ]} [] 0.

(** Collaborators that fail in other ways. *)
Definition value_error : exn := OtherError "ValueError" "bad argument".

Definition tokenize_fails (batch : list string) : res (ids2 * ids2) :=
  Raise (RuntimeError "tokenizer failure").

Definition generate_value_error (k : nat) (ids mask : ids2)
    (max_new_tokens : nat) (nz : noise nat) : res ids2 :=
  Raise value_error.

(** A generate call that returns every row twice. *)
Definition generate_doubled (k : nat) (ids mask : ids2)
    (max_new_tokens : nat) (nz : noise nat) : res ids2 :=
  Ok (ids ++ ids).

Definition forward_value_error_from (bad vocab : nat) (k : nat)
    (ids mask : ids2) (nz : noise nat) : res (list (list (list nat))) :=
  if decide (bad ≤ k) then Raise value_error else forward vocab k ids mask nz.

Definition no_tokenizer : engine nat nat :=
  mkEngine nat nat tokenize_fails decode generate (forward 10) (λ l, l) 1 0
    (λ x, x).
Definition bad_generation : engine nat nat :=
  engine_of generate_value_error (forward 10).
Definition doubled_generation : engine nat nat :=
  engine_of generate_doubled (forward 10).
Definition small_value_error (bad : nat) : engine nat nat :=
  engine_of generate (forward_value_error_from bad 10).

(** The inputs of the examples. *)
Definition prompts : list string := ["ab"; "c"].
Definition w0 : world := world_of prompts.
Definition one_prompt : ids2 * ids2 := ([[1; 2]], [[1; 1]]).
Definition small : engine nat nat := engine_of generate (forward 10).
Definition small_failing (bad : nat) : engine nat nat :=
  engine_of generate (forward_fails_from bad 10).

End Toy.

(** An engine over the real numbers: the softmax is the mathematical one,
    and every position carries the logits [0, 1] over a vocabulary of two
    tokens. *)
Module RealEngine.

Definition softmax (l : list R) : list R :=
  map (λ x, exp x / foldr Rplus 0 (map exp l))%R l.

Definition forward (k : nat) (ids mask : ids2) (nz : noise nat)
  : res (list (list (list R))) :=
  Ok (map (map (λ _, [0%R; 1%R])) ids).

Definition two_tokens : engine R nat :=
  mkEngine R nat Toy.tokenize Toy.decode Toy.generate forward softmax
    1%R 0%R (λ x, x).

(** Two sequences that differ in their second token. *)
Definition two_rows : ids2 * ids2 := ([[0; 0]; [0; 1]], [[1; 1]; [1; 1]]).

End RealEngine.

(** An engine whose tensor entries are the integer-valued floats and the
    infinities, with the conversion to [torch.float16] of IEEE 754: a
    binary16 number has 11 significant bits, rounding is to the nearest
    value with ties to the even one, and a magnitude that rounds beyond
    65504, the largest finite binary16 number, becomes an infinity. *)
Module Float16.

Inductive num : Type :=
  | Int (z : Z)
  | Inf (negative : bool).

(** A non-negative integer rounded to 11 significant bits. *)
Definition round_half_even (n : Z) : Z :=
  let s := (2 ^ Z.max 0 (Z.log2 n - 10))%Z in
  let q := (n / s)%Z in
  let r := (n mod s)%Z in
  (s * (q + (if (s <? 2 * r) || ((2 * r =? s) && Z.odd q) then 1 else 0)))%Z.

Definition to_float16 (x : num) : num :=
  match x with
  | Int z =>
      let m := round_half_even (Z.abs z) in
      if (65504 <? m)%Z then Inf (z <? 0)%Z else Int (Z.sgn z * m)
  | Inf negative => Inf negative
  end.

(** Every position carries the same four logits. *)
Definition vocabulary_row : list num :=
  [Int 7; Int 2049; Int 70000; Int (-2051)].

Definition forward (k : nat) (ids mask : ids2) (nz : noise nat)
  : res (list (list (list num))) :=
  Ok (map (map (λ _, vocabulary_row)) ids).

Definition engine : engine num nat :=
  mkEngine num nat Toy.tokenize Toy.decode Toy.generate forward (λ l, l)
    (Int 1) (Int 0) to_float16.

End Float16.

(** * Verification *)

(** ** Strings *)

Section StringFacts.

Lemma app_String (c : ascii) (p r : string) :
  (String c p ++ r)%string = String c (p ++ r).
Proof. reflexivity. Qed.

Lemma prefix_true_app (p s : string) :
  String.prefix p s = true ↔ ∃ rest, s = (p ++ rest)%string.
Proof.
  revert s. induction p as [|c p IH]; intros [|d s]; simpl.
  - split; [intros _; by exists EmptyString | done].
  - split; [intros _; by exists (String d s) | done].
  - split; [done | by intros [r Hr]].
  - setoid_rewrite app_String.
    destruct (Ascii.ascii_dec c d) as [->|Hne].
    + rewrite IH. split; intros [r Hr]; exists r; congruence.
    + split; [done | intros [r Hr]; congruence].
Qed.

(** [contains] decides the substring relation of Python's [in]. *)
Lemma contains_spec (needle hay : string) :
  contains needle hay = true ↔
  ∃ before after, hay = (before ++ needle ++ after)%string.
Proof.
  induction hay as [|c hay IH].
  - change (contains needle EmptyString)
      with (String.prefix needle EmptyString || false).
    rewrite orb_false_r, prefix_true_app. split.
    + intros [r Hr]. by exists EmptyString, r.
    + intros ([|b before] & after & H);
        [by exists after | by rewrite app_String in H].
  - change (contains needle (String c hay))
      with (String.prefix needle (String c hay) || contains needle hay).
    rewrite orb_true_iff, prefix_true_app, IH. split.
    + intros [[r Hr] | (b & a & H)].
      * by exists EmptyString, r.
      * exists (String c b), a. by rewrite app_String, H.
    + intros ([|b before] & after & H).
      * left. by exists after.
      * right. exists before, after. rewrite app_String in H. congruence.
Qed.

End StringFacts.

(** ** Construction-time configuration *)

Module ConfigFacts.

Import Config.

(** C5, as the specification words it, fails: for a LLaMA tokenizer
    that ships an explicit pad token the constructor installs the
    unknown token, where the chain of the specification keeps the
    explicit one. *)
Lemma explicit_pad_token_overridden :
  let t := mkTokenizer "right" (Some "<pad>") (Some "<unk>") (Some "</s>") in
  let path := "meta-llama/Llama-2-7b-chat-hf" in
  truthy (pad_token t) = true ∧
  spec_pad_chain path t = Some "<pad>" ∧
  pad_token (configure_tokenizer path t) = Some "<unk>" ∧
  pad_token (configure_tokenizer path t) ≠ spec_pad_chain path t.
Proof. vm_compute. repeat split; discriminate. Qed.

(** C5 (amended): a tokenizer path containing [llama] or [Llama] makes
    the unknown token the pad token, whatever pad token was there; any
    other path keeps the pad token it finds.  If the pad token is then
    unset or empty, the end-of-sequence token takes its place.  The
    unknown and end-of-sequence tokens are not touched, padding is on the
    left, and running the block a second time changes nothing. *)
Theorem configure_tokenizer_pad_token (tokenizer_path : string)
    (t : tokenizer) :
  let t' := configure_tokenizer tokenizer_path t in
  let candidate :=
    if llama_family tokenizer_path then unk_token t else pad_token t in
  pad_token t' = (if truthy candidate then candidate else eos_token t) ∧
  unk_token t' = unk_token t ∧
  eos_token t' = eos_token t ∧
  padding_side t' = "left" ∧
  configure_tokenizer tokenizer_path t' = t'.
Proof.
  unfold configure_tokenizer, llama_family.
  destruct t as [side [[|? ?]|] [[|? ?]|] [[|? ?]|]];
    destruct (contains "llama" tokenizer_path || contains "Llama" tokenizer_path);
    done.
Qed.

(** C6, as the specification words it, fails: a forward driver loads a
    model whose path does not mention vicuna in single precision. *)
Lemma forward_driver_not_half_precision :
  let path := "meta-llama/Llama-2-7b-chat-hf" in
  contains "vicuna" path = false ∧
  LLMForward_torch_dtype path = float32 ∧
  BatchLLMForward_torch_dtype path = float32 ∧
  LLMForward_torch_dtype path ≠ float16.
Proof. vm_compute. repeat split; discriminate. Qed.

(** C6 (amended): the generation drivers [LLM] and [BatchLLM] request
    float16, and float32 when the model path contains [vicuna]; on top
    of that [BatchLLM] converts a model whose path contains [llama-2] or
    [Llama-2] to bfloat16.  The forward drivers request float32 for
    every model path. *)
Theorem torch_dtype_by_driver (model_path : string) :
  (LLM_torch_dtype model_path =
     if contains "vicuna" model_path then float32 else float16) ∧
  (BatchLLM_torch_dtype model_path =
     if contains "vicuna" model_path then float32 else float16) ∧
  (BatchLLM_model_dtype model_path =
     if contains "llama-2" model_path || contains "Llama-2" model_path
     then bfloat16 else BatchLLM_torch_dtype model_path) ∧
  BatchLLMForward_torch_dtype model_path = float32 ∧
  LLMForward_torch_dtype model_path = float32 ∧
  LLMForwardMultiprocessing_torch_dtype model_path = float32 ∧
  LLMForwardLight_torch_dtype model_path = float32.
Proof.
  unfold LLM_torch_dtype, BatchLLM_model_dtype, BatchLLM_torch_dtype,
    BatchLLMForward_torch_dtype, LLMForward_torch_dtype,
    LLMForwardMultiprocessing_torch_dtype, LLMForwardLight_torch_dtype.
  destruct (contains "vicuna" model_path); repeat split; reflexivity.
Qed.

End ConfigFacts.

(** ** Sequencing and indexing *)

Section ResFacts.

Context {A B : Type}.

Lemma getitem_Ok (l : list A) (i : nat) (a : A) :
  l !! i = Some a → getitem l i = Ok a.
Proof. unfold getitem. by intros ->. Qed.

Lemma mapM_res_cons (f : A → res B) (x : A) (l : list A) :
  mapM f (x :: l) = (y ← f x; k ← mapM f l; mret (y :: k)).
Proof. reflexivity. Qed.

(** [mapM] succeeds exactly when every element does, and keeps the
    order of the list. *)
Lemma mapM_res_Ok (f : A → res B) (l : list A) (k : list B) :
  mapM f l = Ok k ↔ Forall2 (λ x y, f x = Ok y) l k.
Proof.
  revert k. induction l as [|x l IH]; intros k.
  - split; [intros [=<-]; constructor | by inversion 1].
  - rewrite mapM_res_cons. split.
    + destruct (f x) as [y|e] eqn:Hx; [|done]. simpl.
      destruct (mapM f l) as [k'|e] eqn:Hl; [|done]. simpl.
      intros [=<-]. constructor; [done | by apply IH].
    + inversion 1 as [|? y ? k' Hx Hl]; subst.
      rewrite Hx. simpl. apply IH in Hl. by rewrite Hl.
Qed.

Lemma mapM_res_length (f : A → res B) (l : list A) (k : list B) :
  mapM f l = Ok k → length k = length l.
Proof. rewrite mapM_res_Ok. intros H. symmetry. by eapply Forall2_length. Qed.

Lemma mapM_res_total (f : A → res B) (g : A → B) (l : list A) :
  Forall (λ x, f x = Ok (g x)) l → mapM f l = Ok (map g l).
Proof.
  intros H. apply mapM_res_Ok. induction H; constructor; auto.
Qed.

End ResFacts.

Section EnumerateFacts.

Context {A B C : Type}.

Lemma mapM_enumerate_from (h : A → B → C) (G : list A) (outs : list B)
    (k : nat) :
  k + length outs ≤ length G →
  mapM (λ io : nat * B, g ← getitem G io.1; mret (h g io.2))
       (zip (seq k (length outs)) outs)
  = Ok (zip_with h (drop k G) outs).
Proof.
  revert k. induction outs as [|o outs IH]; intros k Hk; simpl in Hk.
  - by destruct (drop k G).
  - destruct (G !! k) as [g|] eqn:Hg;
      [|apply lookup_ge_None in Hg; lia].
    simpl length. simpl seq. simpl zip. rewrite mapM_res_cons. simpl.
    rewrite (getitem_Ok _ _ _ Hg). simpl.
    rewrite IH by lia. simpl.
    by rewrite (drop_S _ _ _ Hg).
Qed.

Lemma mapM_enumerate (h : A → B → C) (G : list A) (outs : list B) :
  length outs ≤ length G →
  mapM (λ io : nat * B, g ← getitem G io.1; mret (h g io.2))
       (zip (seq 0 (length outs)) outs)
  = Ok (zip_with h G outs).
Proof. intros H. by rewrite mapM_enumerate_from. Qed.

End EnumerateFacts.

(** ** Generation drivers *)

Section GenerationFacts.

Context {F S : Type}.
Variable E : engine F S.

Lemma trim_outputs_Ok (ids outs : ids2) :
  length outs ≤ length ids →
  trim_outputs E ids outs = Ok (zip_with (continuation E) ids outs).
Proof.
  intros Hlen. unfold trim_outputs.
  pose proof (mapM_enumerate (λ g o, str_from g o)
    (map (λ row, String.length (decode E row)) ids)
    (map (decode E) outs)) as H.
  rewrite !length_map in H. rewrite length_map, (H Hlen). f_equal.
  clear. revert outs. induction ids as [|r ids IH]; intros [|o outs];
    simpl; try done. by rewrite IH.
Qed.

Lemma append_original_prompt_world (batch : loc) (op : option string)
    (w : world) :
  append_original_prompt batch op w =
  (mkWorld (heap (append_original_prompt batch op w).1) (stdout w) (calls w),
   Ok ()).
Proof. by destruct op as [[|c p]|], w. Qed.

Lemma append_truthy (batch : loc) (p : string) (w : world) :
  p ≠ EmptyString →
  heap (append_original_prompt batch (Some p) w).1
  = <[batch := (heap w !!! batch) ++ [p]]> (heap w).
Proof. by destruct p. Qed.

Section Driver.

Variables (log_line : exn → M unit) (text : exn → string).
Hypothesis Hlog : prints log_line text.
Variables (nz : noise S) (batch : loc) (max_new_tokens : nat)
          (original_prompt : option string) (w : world).

Let w1 := (append_original_prompt batch original_prompt w).1.

(** Every path through the driver, as one equation. *)
Lemma generation_driver_unfold :
  generation_driver E log_line nz batch max_new_tokens original_prompt w =
  match tokenize E (heap w1 !!! batch) with
  | Raise e => (mkWorld (heap w1) (stdout w) (calls w), Raise e)
  | Ok (ids, mask) =>
      match generate E (calls w) ids mask max_new_tokens nz with
      | Ok outs =>
          (mkWorld (heap w1) (stdout w) (Datatypes.S (calls w)),
           trim_outputs E ids outs)
      | Raise e =>
          if is_runtime_error e
          then (mkWorld (heap w1) (stdout w ++ [text e])
                  (Datatypes.S (calls w)), Ok [])
          else (mkWorld (heap w1) (stdout w) (Datatypes.S (calls w)),
                Raise e)
      end
  end.
Proof.
  unfold generation_driver, w1. unfold mbind at 1. unfold M_bind at 1.
  rewrite append_original_prompt_world. simpl.
  unfold mbind, M_bind, read_list, lift, try_except_RuntimeError,
    engine_call, mret, M_ret. simpl.
  destruct (tokenize E _) as [[ids mask]|e]; [|done]. simpl.
  destruct (generate E _ _ _ _ _) as [outs|e]; simpl; [done|].
  destruct (is_runtime_error e); [|done].
  rewrite Hlog. done.
Qed.

(** The list objects are as the optional append left them, on every
    path. *)
Lemma generation_driver_heap :
  heap (generation_driver E log_line nz batch max_new_tokens
          original_prompt w).1 = heap w1.
Proof.
  rewrite generation_driver_unfold.
  destruct (tokenize E _) as [[ids mask]|e]; [|done].
  destruct (generate E _ _ _ _ _) as [outs|e]; [done|].
  by destruct (is_runtime_error e).
Qed.

End Driver.

Lemma LLM_prints : prints (λ e, print (str_of e)) str_of.
Proof. done. Qed.

Lemma BatchLLM_prints :
  prints (print2 log_prefix_generate)
         (λ e, log_prefix_generate ++ " " ++ str_of e)%string.
Proof. done. Qed.

End GenerationFacts.

Section GenerationClaims.

Context {F S : Type}.
Variable E : engine F S.

Variables (batch : loc) (w : world).
Variables (start_noise_idx end_noise_idx : nat)
          (start_noise_idx_list end_noise_idx_list : list nat)
          (noise_scale : S) (max_new_tokens : nat).

Let shared := NoiseScale start_noise_idx end_noise_idx noise_scale.
Let per_row :=
  NoiseScaleList start_noise_idx_list end_noise_idx_list noise_scale.

(** C4: when [generate] raises a [RuntimeError], [LLM.__call__] and
    [BatchLLM.__call__] print the error and return the empty list: the
    call ends normally, it does not raise, and nothing of the batch is
    returned. *)
Theorem generation_failure_returns_empty
    (original_prompt : option string) (ids mask : ids2) (msg : string) :
  let w1 := (append_original_prompt batch original_prompt w).1 in
  tokenize E (heap w1 !!! batch) = Ok (ids, mask) →
  generate E (calls w) ids mask max_new_tokens shared
    = Raise (RuntimeError msg) →
  generate E (calls w) ids mask max_new_tokens per_row
    = Raise (RuntimeError msg) →
  LLM_call E batch start_noise_idx end_noise_idx noise_scale
      max_new_tokens original_prompt w
    = (mkWorld (heap w1) (stdout w ++ [msg]) (Datatypes.S (calls w)), Ok [])
  ∧
  BatchLLM_call E batch start_noise_idx_list end_noise_idx_list noise_scale
      max_new_tokens original_prompt w
    = (mkWorld (heap w1)
         (stdout w ++ ["cannot generate; error raised :  " ++ msg]%string)
         (Datatypes.S (calls w)), Ok []).
Proof.
  intros w1 Htok Hgen1 Hgen2. unfold shared, per_row in *.
  unfold LLM_call, BatchLLM_call. split.
  - rewrite (generation_driver_unfold E _ _ (LLM_prints)).
    fold w1. by rewrite Htok, Hgen1.
  - rewrite (generation_driver_unfold E _ _ (BatchLLM_prints)).
    fold w1. by rewrite Htok, Hgen2.
Qed.

(** C8 (amended): a non-empty [original_prompt] is appended to the
    batch as its last row before the tokenizer runs.  When the tokenizer
    gives one row per prompt and [generate] one output row per input
    row, the driver returns one continuation more than the same call
    without the extra prompt, and the last continuation is the one of
    the last row, the row of the extra prompt. *)
Theorem extra_prompt_adds_one_continuation
    (p : string) (ids mask outs1 outs2 ids0 mask0 outs1' outs2' : ids2) :
  let prompts := heap w !!! batch in
  p ≠ EmptyString →
  tokenize E (prompts ++ [p]) = Ok (ids, mask) →
  length ids = length prompts + 1 →
  generate E (calls w) ids mask max_new_tokens shared = Ok outs1 →
  generate E (calls w) ids mask max_new_tokens per_row = Ok outs2 →
  length outs1 = length ids → length outs2 = length ids →
  tokenize E prompts = Ok (ids0, mask0) →
  length ids0 = length prompts →
  generate E (calls w) ids0 mask0 max_new_tokens shared = Ok outs1' →
  generate E (calls w) ids0 mask0 max_new_tokens per_row = Ok outs2' →
  length outs1' = length ids0 → length outs2' = length ids0 →
  ∃ conts1 conts2 conts1' conts2' : list string,
    (LLM_call E batch start_noise_idx end_noise_idx noise_scale
       max_new_tokens (Some p) w).2 = Ok conts1 ∧
    (LLM_call E batch start_noise_idx end_noise_idx noise_scale
       max_new_tokens None w).2 = Ok conts1' ∧
    (BatchLLM_call E batch start_noise_idx_list end_noise_idx_list
       noise_scale max_new_tokens (Some p) w).2 = Ok conts2 ∧
    (BatchLLM_call E batch start_noise_idx_list end_noise_idx_list
       noise_scale max_new_tokens None w).2 = Ok conts2' ∧
    length conts1' = length prompts ∧
    length conts2' = length prompts ∧
    length conts1 = Datatypes.S (length conts1') ∧
    length conts2 = Datatypes.S (length conts2') ∧
    ∃ row out1 out2,
      last ids = Some row ∧ last outs1 = Some out1 ∧
      last outs2 = Some out2 ∧
      last conts1 = Some (continuation E row out1) ∧
      last conts2 = Some (continuation E row out2).
Proof.
  intros prompts Hp Htok Hids Hg1 Hg2 Ho1 Ho2 Htok0 Hids0 Hg1' Hg2' Ho1' Ho2'.
  exists (zip_with (continuation E) ids outs1),
         (zip_with (continuation E) ids outs2),
         (zip_with (continuation E) ids0 outs1'),
         (zip_with (continuation E) ids0 outs2').
  unfold shared, per_row in *. unfold LLM_call, BatchLLM_call.
  rewrite !(generation_driver_unfold E _ _ (LLM_prints)),
          !(generation_driver_unfold E _ _ (BatchLLM_prints)).
  rewrite (append_truthy batch p w Hp), lookup_total_insert_eq.
  simpl. fold prompts. rewrite Htok, Htok0, Hg1, Hg2, Hg1', Hg2'. simpl.
  rewrite !trim_outputs_Ok by lia.
  rewrite !length_zip_with.
  repeat split; try done; try lia.
  destruct (last ids) as [row|] eqn:Hrow;
    [|apply last_None in Hrow; subst ids; simpl in Hids; lia].
  destruct (last outs1) as [out1|] eqn:Hout1;
    [|apply last_None in Hout1; subst outs1; simpl in Ho1; lia].
  destruct (last outs2) as [out2|] eqn:Hout2;
    [|apply last_None in Hout2; subst outs2; simpl in Ho2; lia].
  exists row, out1, out2. repeat split; try done.
  - apply last_Some in Hrow as [ids' ->]. apply last_Some in Hout1 as [o' ->].
    rewrite !length_app in Ho1. simpl in Ho1.
    rewrite zip_with_app by lia. simpl. by rewrite last_snoc.
  - apply last_Some in Hrow as [ids' ->]. apply last_Some in Hout2 as [o' ->].
    rewrite !length_app in Ho2. simpl in Ho2.
    rewrite zip_with_app by lia. simpl. by rewrite last_snoc.
Qed.

(** C10: a non-empty [original_prompt] is appended to the list object
    the caller passed, and the object keeps it after the call, however
    the call ends.  An empty string is not appended: the call behaves as
    the call without an extra prompt, the list object is unchanged, and
    on success there is one continuation per prompt of the original
    batch. *)
Theorem extra_prompt_mutates_caller_batch
    (p : string) (ids0 mask0 outs1 outs2 : ids2) :
  let prompts := heap w !!! batch in
  let call1 := LLM_call E batch start_noise_idx end_noise_idx noise_scale
                 max_new_tokens in
  let call2 := BatchLLM_call E batch start_noise_idx_list
                 end_noise_idx_list noise_scale max_new_tokens in
  p ≠ EmptyString →
  tokenize E prompts = Ok (ids0, mask0) →
  length ids0 = length prompts →
  generate E (calls w) ids0 mask0 max_new_tokens shared = Ok outs1 →
  generate E (calls w) ids0 mask0 max_new_tokens per_row = Ok outs2 →
  length outs1 = length ids0 → length outs2 = length ids0 →
  heap (call1 (Some p) w).1 = <[batch := prompts ++ [p]]> (heap w) ∧
  heap (call2 (Some p) w).1 = <[batch := prompts ++ [p]]> (heap w) ∧
  call1 (Some EmptyString) w = call1 None w ∧
  call2 (Some EmptyString) w = call2 None w ∧
  heap (call1 (Some EmptyString) w).1 = heap w ∧
  heap (call2 (Some EmptyString) w).1 = heap w ∧
  ∃ conts1 conts2 : list string,
    (call1 (Some EmptyString) w).2 = Ok conts1 ∧
    (call2 (Some EmptyString) w).2 = Ok conts2 ∧
    length conts1 = length prompts ∧
    length conts2 = length prompts.
Proof.
  intros prompts call1 call2 Hp Htok Hids Hg1 Hg2 Ho1 Ho2.
  unfold shared, per_row in *.
  unfold call1, call2, LLM_call, BatchLLM_call.
  rewrite !(generation_driver_heap E _ _ (LLM_prints)),
          !(generation_driver_heap E _ _ (BatchLLM_prints)).
  rewrite (append_truthy batch p w Hp).
  repeat split; try done.
  exists (zip_with (continuation E) ids0 outs1),
         (zip_with (continuation E) ids0 outs2).
  rewrite !(generation_driver_unfold E _ _ (LLM_prints)),
          !(generation_driver_unfold E _ _ (BatchLLM_prints)).
  simpl. fold prompts. rewrite Htok, Hg1, Hg2. simpl.
  rewrite !trim_outputs_Ok by lia.
  rewrite !length_zip_with. repeat split; try done; lia.
Qed.

End GenerationClaims.

(** ** Answer-choice projector *)

Section ProjectorFacts.

Context {F S : Type}.
Variable E : engine F S.

Variables (logits : list (list (list F))) (answer_token_ids : list Z).

Lemma wrap_index_lt (len : nat) (t : Z) (n : nat) :
  wrap_index len t = Some n → n < len.
Proof.
  unfold wrap_index.
  destruct ((0 <=? t) && (t <? Z.of_nat len))%Z eqn:H1.
  - intros [= <-]. apply andb_true_iff in H1 as [H0 H1].
    apply Z.leb_le in H0. apply Z.ltb_lt in H1. lia.
  - destruct ((- Z.of_nat len <=? t) && (t <? 0))%Z eqn:H2; [|done].
    intros [= <-]. apply andb_true_iff in H2 as [H0 H2].
    apply Z.leb_le in H0. apply Z.ltb_lt in H2. lia.
Qed.

Lemma projectable_lookup (i : nat) (sq : list (list F)) :
  projectable logits answer_token_ids = true →
  logits !! i = Some sq →
  ∃ final, last sq = Some final ∧
           Forall (λ t, covers (length final) t = true) answer_token_ids.
Proof.
  unfold projectable. rewrite forallb_forall. intros H Hi.
  specialize (H sq). rewrite <- list_elem_of_In in H.
  specialize (H (list_elem_of_lookup_2 _ _ _ Hi)).
  destruct (last sq) as [final|]; [|done]. exists final. split; [done|].
  rewrite forallb_forall in H. apply Forall_forall. intros t Ht.
  by apply list_elem_of_In, H in Ht.
Qed.

(** A covered index resolves to an entry, and [getitem_int] returns it. *)
Lemma getitem_int_covered {A} (fin : list A) (t : Z) :
  covers (length fin) t = true →
  ∃ n v, wrap_index (length fin) t = Some n ∧ fin !! n = Some v ∧
         getitem_int fin t = Ok v.
Proof.
  unfold covers, getitem_int. rewrite andb_true_iff, bool_decide_eq_true.
  intros [-> [n Hn]].
  destruct (lookup_lt_is_Some_2 fin n (wrap_index_lt _ _ _ Hn)) as [v Hv].
  exists n, v. by rewrite Hn, (getitem_Ok _ _ _ Hv).
Qed.

Lemma last_logit_Some (i : nat) (t : Z) (sq : list (list F))
    (fin : list F) :
  logits !! i = Some sq → last sq = Some fin →
  covers (length fin) t = true →
  ∃ v, last_logit logits i t = Some v ∧ getitem_int fin t = Ok v.
Proof.
  intros Hi Hl Ht. unfold last_logit. rewrite Hi. simpl. rewrite Hl. simpl.
  destruct (getitem_int_covered fin t Ht) as (n & v & Hn & Hv & Hg).
  exists v. rewrite Hn. simpl. by rewrite Hv.
Qed.

(** The list comprehension of line 529, without the conversion. *)
Lemma last_position_at_Ok (i : nat) :
  projectable logits answer_token_ids = true →
  i < length logits →
  last_position_at logits i answer_token_ids
  = Ok (map (λ t, default (zero E) (last_logit logits i t))
            answer_token_ids).
Proof.
  intros Hp Hi.
  destruct (lookup_lt_is_Some_2 logits i Hi) as [sq Hsq].
  destruct (projectable_lookup i sq Hp Hsq) as (fin & Hl & Hall).
  unfold last_position_at. apply mapM_res_total.
  eapply Forall_impl; [exact Hall|]. intros t Ht. simpl in Ht.
  rewrite (getitem_Ok _ _ _ Hsq). simpl. unfold getlast. rewrite Hl. simpl.
  destruct (last_logit_Some i t sq fin Hsq Hl Ht) as (v & Hv & Hf).
  by rewrite Hv, Hf.
Qed.

(** The row loop: the rows before [k] are final, the rows from [k] on
    are still the zeros of the initial grid. *)
Lemma fill_answer_rows_seq (m k : nat) (filled rest : list (list F)) :
  projectable logits answer_token_ids = true →
  length filled = k → length rest = m → k + m ≤ length logits →
  fill_answer_rows E (seq k m) logits answer_token_ids (filled ++ rest)
  = Ok (filled ++ map (spec_answer_row E logits answer_token_ids) (seq k m)).
Proof.
  intros Hp. revert k filled rest.
  induction m as [|m IH]; intros k filled rest Hk Hm Hle.
  - destruct rest; [|done]. done.
  - destruct rest as [|old rest]; [done|]. simpl in Hm.
    simpl seq. simpl fill_answer_rows.
    rewrite last_position_at_Ok by (done || lia). simpl.
    replace (<[k := _]> (filled ++ old :: rest))
      with ((filled ++ [spec_answer_row E logits answer_token_ids k]) ++ rest).
    + rewrite IH; [| by rewrite length_app; simpl; lia | lia | lia].
      by rewrite <- app_assoc.
    + rewrite <- app_assoc. simpl.
      rewrite insert_app_r_alt by lia. rewrite Hk, Nat.sub_diag. simpl.
      f_equal. f_equal. unfold spec_answer_row. by rewrite map_map.
Qed.

Lemma get_answer_choice_logits_Ok :
  projectable logits answer_token_ids = true →
  get_answer_choice_logits E logits answer_token_ids
  = Ok (map (spec_answer_row E logits answer_token_ids)
            (seq 0 (length logits))).
Proof.
  intros Hp. unfold get_answer_choice_logits.
  apply (fill_answer_rows_seq (length logits) 0 []); try done.
  by rewrite length_replicate.
Qed.

(** C7 (amended): when the last position of every sequence covers the
    candidate ids, [_get_answer_choice_logits] returns a grid with one row
    per sequence and one column per candidate; entry [k] of row [i] is
    the last-position logit of sequence [i] at the [k]-th candidate id
    after its conversion to float16, the dtype of the grid.  The columns
    follow the caller's order, repeated ids included.  An entry is the
    logit itself when the conversion leaves that logit unchanged. *)
Theorem answer_choice_logits_select_last_position :
  projectable logits answer_token_ids = true →
  ∃ grid : list (list F),
    get_answer_choice_logits E logits answer_token_ids = Ok grid ∧
    length grid = length logits ∧
    Forall (λ row, length row = length answer_token_ids) grid ∧
    ∀ i, i < length logits →
      ∃ row, grid !! i = Some row ∧
        ∀ k t, answer_token_ids !! k = Some t →
          ∃ v, last_logit logits i t = Some v ∧
               row !! k = Some (to_float16 E v) ∧
               (to_float16 E v = v → row !! k = Some v).
Proof.
  intros Hp. eexists. split; [by apply get_answer_choice_logits_Ok|].
  split; [by rewrite length_map, length_seq|].
  split.
  - apply Forall_forall. intros row Hrow.
    apply list_elem_of_fmap in Hrow as (i & -> & _).
    unfold spec_answer_row. by rewrite length_map.
  - intros i Hi. exists (spec_answer_row E logits answer_token_ids i).
    split.
    + rewrite list_lookup_fmap, lookup_seq_lt by done. done.
    + intros k t Hk.
      destruct (lookup_lt_is_Some_2 logits i Hi) as [sq Hsq].
      destruct (projectable_lookup i sq Hp Hsq) as (fin & Hl & Hall).
      rewrite Forall_forall in Hall.
      destruct (last_logit_Some i t sq fin Hsq Hl) as (v & Hv & _).
      { apply Hall. by eapply list_elem_of_lookup_2. }
      exists v. split; [done|].
      assert (Hrow : spec_answer_row E logits answer_token_ids i !! k
                     = Some (to_float16 E v)).
      { unfold spec_answer_row. rewrite list_lookup_fmap, Hk. simpl.
        by rewrite Hv. }
      split; [done|]. intros Heq. by rewrite Hrow, Heq.
Qed.

End ProjectorFacts.

(** C7, as the specification words it, fails for a logit that float16
    does not hold: the grid is built with [dtype=torch.float16], so its
    entry is the logit rounded to 11 significant bits.  The last position
    covers the candidate ids and the logit at id 1 is 2049; the grid
    holds 2048 there.  The logit 70000 becomes an infinity and -2051
    becomes -2052, while 7 is kept.  The light driver returns such a
    grid. *)
Lemma float16_entry_differs_from_logit :
  let logits := [[Float16.vocabulary_row; Float16.vocabulary_row]] in
  projectable logits [1; 0; 2; -1]%Z = true ∧
  last_logit logits 0 1 = Some (Float16.Int 2049) ∧
  get_answer_choice_logits Float16.engine logits [1; 0; 2; -1]%Z
    = Ok [[Float16.Int 2048; Float16.Int 7; Float16.Inf false;
           Float16.Int (-2052)]] ∧
  (∀ grid row v,
     get_answer_choice_logits Float16.engine logits [1; 0; 2; -1]%Z
       = Ok grid →
     grid !! 0 = Some row → last_logit logits 0 1 = Some v →
     row !! 0 ≠ Some v) ∧
  forward Float16.engine 0 Toy.one_prompt.1 Toy.one_prompt.2
    (NoiseLevel 0 1 7) = Ok logits ∧
  LLMForwardLight_call Float16.engine Toy.one_prompt 0 1 [1]%Z 1 7 1 Toy.w0
    = (after_calls Toy.w0 1, Ok (Tensor [[Float16.Int 2048]])).
Proof.
  intros logits. split; [reflexivity|]. split; [reflexivity|].
  split; [reflexivity|]. split; [|split; reflexivity].
  intros grid row v Hg Hrow Hv. vm_compute in Hg. injection Hg as <-.
  injection Hrow as <-. vm_compute in Hv. injection Hv as <-.
  discriminate.
Qed.

(** ** Replicated forward drivers *)

Section ChunkLoops.

Context {F S T : Type}.
Variable E : engine F S.

Variables (post : list (list (list F)) → res T)
          (input_ids attention_masks : ids2) (nz : noise S)
          (forward_batch_size : nat).

Local Abbreviation chunk := (chunk_rows forward_batch_size).
Local Abbreviation answers :=
  (chunk_logits E input_ids attention_masks nz forward_batch_size).
Local Abbreviation guarded :=
  (guarded_chunks E post input_ids attention_masks nz forward_batch_size).
Local Abbreviation bare :=
  (bare_chunks E post input_ids attention_masks nz forward_batch_size).

Lemma after_calls_0 (w : world) : after_calls w 0 = w.
Proof. destruct w. unfold after_calls. simpl. by rewrite Nat.add_0_r. Qed.

Lemma after_calls_add (w : world) (a b : nat) :
  after_calls (after_calls w a) b = after_calls w (a + b).
Proof. unfold after_calls. simpl. f_equal. lia. Qed.

Lemma forward_chunk_unfold (i : nat) (w : world) :
  forward_chunk E post input_ids attention_masks nz forward_batch_size i w =
  (after_calls w 1,
   match forward E (calls w) (chunk input_ids i) (chunk attention_masks i) nz
   with
   | Ok lg => post lg
   | Raise e => Raise e
   end).
Proof.
  unfold forward_chunk, mbind, M_bind, engine_call, lift, after_calls. simpl.
  rewrite Nat.add_1_r.
  by destruct (forward E _ _ _ _).
Qed.

Lemma guarded_step_Ok (i : nat) (rest : list nat) (acc : list T) (w : world)
    (lg : list (list (list F))) (t : T) :
  forward E (calls w) (chunk input_ids i) (chunk attention_masks i) nz
    = Ok lg →
  post lg = Ok t →
  guarded (i :: rest) acc w = guarded rest (acc ++ [t]) (after_calls w 1).
Proof.
  intros Hf Hp. simpl guarded_chunks at 1.
  unfold mbind at 1. unfold M_bind at 1.
  unfold try_except_RuntimeError. unfold mbind at 1. unfold M_bind at 1.
  by rewrite forward_chunk_unfold, Hf, Hp.
Qed.

Lemma bare_step_Ok (i : nat) (rest : list nat) (acc : list T) (w : world)
    (lg : list (list (list F))) (t : T) :
  forward E (calls w) (chunk input_ids i) (chunk attention_masks i) nz
    = Ok lg →
  post lg = Ok t →
  bare (i :: rest) acc w = bare rest (acc ++ [t]) (after_calls w 1).
Proof.
  intros Hf Hp. simpl bare_chunks at 1.
  unfold mbind at 1. unfold M_bind at 1.
  by rewrite forward_chunk_unfold, Hf, Hp.
Qed.

(** A run of chunks on which the forward pass and [post] succeed moves
    their results, in order, to the end of the accumulator. *)
Lemma guarded_chunks_seq (m k : nat) (rest : list nat) (acc : list T)
    (w : world) (first_call : nat) (lgs : list (list (list (list F))))
    (parts : list T) :
  calls w = first_call + k →
  answers first_call (seq k m) = Ok lgs →
  mapM post lgs = Ok parts →
  guarded (seq k m ++ rest) acc w
  = guarded rest (acc ++ parts) (after_calls w m).
Proof.
  revert k acc w lgs parts.
  induction m as [|m IH]; intros k acc w lgs parts Hc Hl Hp.
  - injection Hl as <-. injection Hp as <-.
    simpl. by rewrite app_nil_r, after_calls_0.
  - simpl seq in *. unfold chunk_logits in Hl. rewrite mapM_res_cons in Hl.
    destruct (forward E (first_call + k) _ _ _) as [lg|] eqn:Hf; [|done].
    simpl in Hl.
    destruct (mapM _ (seq _ m)) as [lgs'|] eqn:Hl'; [|done].
    injection Hl as <-. rewrite mapM_res_cons in Hp.
    destruct (post lg) as [t|] eqn:Ht; [|done]. simpl in Hp.
    destruct (mapM post lgs') as [parts'|] eqn:Hp'; [|done].
    injection Hp as <-. rewrite <- Hc in Hf. simpl app.
    rewrite (guarded_step_Ok _ _ _ _ _ _ Hf Ht).
    rewrite (IH (Datatypes.S k) _ _ lgs' parts'); try done.
    + rewrite after_calls_add, <- app_assoc. done.
    + simpl. lia.
Qed.

Lemma bare_chunks_seq (m k : nat) (rest : list nat) (acc : list T)
    (w : world) (first_call : nat) (lgs : list (list (list (list F))))
    (parts : list T) :
  calls w = first_call + k →
  answers first_call (seq k m) = Ok lgs →
  mapM post lgs = Ok parts →
  bare (seq k m ++ rest) acc w = bare rest (acc ++ parts) (after_calls w m).
Proof.
  revert k acc w lgs parts.
  induction m as [|m IH]; intros k acc w lgs parts Hc Hl Hp.
  - injection Hl as <-. injection Hp as <-.
    simpl. by rewrite app_nil_r, after_calls_0.
  - simpl seq in *. unfold chunk_logits in Hl. rewrite mapM_res_cons in Hl.
    destruct (forward E (first_call + k) _ _ _) as [lg|] eqn:Hf; [|done].
    simpl in Hl.
    destruct (mapM _ (seq _ m)) as [lgs'|] eqn:Hl'; [|done].
    injection Hl as <-. rewrite mapM_res_cons in Hp.
    destruct (post lg) as [t|] eqn:Ht; [|done]. simpl in Hp.
    destruct (mapM post lgs') as [parts'|] eqn:Hp'; [|done].
    injection Hp as <-. rewrite <- Hc in Hf. simpl app.
    rewrite (bare_step_Ok _ _ _ _ _ _ Hf Ht).
    rewrite (IH (Datatypes.S k) _ _ lgs' parts'); try done.
    + rewrite after_calls_add, <- app_assoc. done.
    + simpl. lia.
Qed.

(** A [RuntimeError] in the forward pass of the next chunk. *)
Lemma guarded_chunks_fail (i : nat) (rest : list nat) (acc : list T)
    (w : world) (msg : string) :
  forward E (calls w) (chunk input_ids i) (chunk attention_masks i) nz
    = Raise (RuntimeError msg) →
  guarded (i :: rest) acc w
  = (mkWorld (heap w)
       (stdout w ++ ["cannot forward; error raised :  " ++ msg]%string)
       (calls w + 1),
     Ok (inl EmptyList)).
Proof.
  intros Hf. simpl guarded_chunks.
  unfold mbind at 1. unfold M_bind at 1.
  unfold try_except_RuntimeError. unfold mbind at 1. unfold M_bind at 1.
  by rewrite forward_chunk_unfold, Hf.
Qed.

Lemma bare_chunks_fail (i : nat) (rest : list nat) (acc : list T)
    (w : world) (e : exn) :
  forward E (calls w) (chunk input_ids i) (chunk attention_masks i) nz
    = Raise e →
  bare (i :: rest) acc w = (after_calls w 1, Raise e).
Proof.
  intros Hf. simpl bare_chunks.
  unfold mbind at 1. unfold M_bind at 1.
  by rewrite forward_chunk_unfold, Hf.
Qed.

End ChunkLoops.

Section ShapeFacts.

Context {A : Type}.

Lemma length_repeat_rows (n : nat) (t : list A) :
  length (repeat_rows n t) = n * length t.
Proof.
  unfold repeat_rows. induction n as [|n IH]; [done|].
  simpl. rewrite length_app, IH. done.
Qed.

Lemma length_chunk_rows (b i : nat) (rows : list A) :
  (i + 1) * b ≤ length rows → length (chunk_rows b rows i) = b.
Proof.
  intros H. unfold chunk_rows, slice. rewrite length_take, length_drop. nia.
Qed.

Lemma length_concat_uniform (b : nat) (parts : list (list A)) :
  Forall (λ p, length p = b) parts →
  length (concat parts) = length parts * b.
Proof.
  induction 1 as [|p parts Hp _ IH]; [done|].
  simpl. rewrite length_app, IH, Hp. done.
Qed.

Lemma cat_Ok (ts : list (list A)) :
  0 < length ts → cat ts = Ok (concat ts).
Proof. destruct ts; simpl; [lia | done]. Qed.

Lemma mapM_Ok_id (l : list A) : mapM (M := res) Ok l = Ok l.
Proof.
  induction l as [|x l IH]; [done|]. rewrite mapM_res_cons. simpl.
  by rewrite IH.
Qed.

End ShapeFacts.

Lemma chunk_range_Ok (n b : nat) :
  0 < b → chunk_range n b = Ok (seq 0 (n / b)).
Proof. unfold chunk_range, floordiv. by destruct b; [lia|]. Qed.

Lemma div_mul_le (n b : nat) : n / b * b ≤ n.
Proof.
  destruct b; [lia|]. rewrite Nat.mul_comm. apply Nat.Div0.mul_div_le.
Qed.

Section ForwardClaims.

Context {F S : Type}.
Variable E : engine F S.

Variables (tokenized_input : ids2 * ids2)
          (start_noise_idx end_noise_idx : nat)
          (answer_token_ids : list Z)
          (num_copies : nat) (noise_level : S) (forward_batch_size : nat)
          (w : world).

Local Abbreviation input_ids := (repeat_rows num_copies tokenized_input.1).
Local Abbreviation attention_masks :=
  (repeat_rows num_copies tokenized_input.2).
Local Abbreviation nz :=
  (NoiseLevel start_noise_idx end_noise_idx noise_level).
Local Abbreviation project :=
  (λ lg, get_answer_choice_logits E lg answer_token_ids).

Lemma mapM_project (lgs : list (list (list (list F)))) :
  forallb (λ lg, projectable lg answer_token_ids) lgs = true →
  ∃ parts, mapM project lgs = Ok parts ∧
    Forall2 (λ lg part, project lg = Ok part ∧ length part = length lg)
            lgs parts.
Proof.
  induction lgs as [|lg lgs IH].
  - exists []. split; [done | constructor].
  - simpl forallb. rewrite andb_true_iff. intros [Hp Hall].
    destruct (IH Hall) as (parts & Hm & HF).
    exists (map (spec_answer_row E lg answer_token_ids)
                (seq 0 (length lg)) :: parts).
    pose proof (get_answer_choice_logits_Ok E lg answer_token_ids Hp) as Hg.
    split.
    + rewrite mapM_res_cons, Hg. simpl. by rewrite Hm.
    + constructor; [|done]. split; [done|].
      by rewrite length_map, length_seq.
Qed.

(** The chunks below [n // b] are full when the input has a row. *)
Lemma full_chunks (i : nat) :
  tokenized_input.1 ≠ [] → i < num_copies / forward_batch_size →
  length (chunk_rows forward_batch_size input_ids i) = forward_batch_size.
Proof.
  intros Hne Hi. apply length_chunk_rows. rewrite length_repeat_rows.
  pose proof (div_mul_le num_copies forward_batch_size).
  assert (0 < length tokenized_input.1)
    by (destruct (tokenized_input.1); simpl; [done | lia]).
  nia.
Qed.

Lemma rows_kept_full (lgs : list (list (list (list F)))) (m k : nat) :
  tokenized_input.1 ≠ [] → k + m ≤ num_copies / forward_batch_size →
  length lgs = m →
  rows_kept input_ids forward_batch_size (seq k m) lgs = true →
  Forall (λ lg, length lg = forward_batch_size) lgs.
Proof.
  intros Hne. revert k lgs.
  induction m as [|m IH]; intros k [|lg lgs] Hk Hlen; try done.
  unfold rows_kept. simpl. rewrite andb_true_iff, bool_decide_eq_true.
  intros [Hlg Hrest]. constructor.
  - rewrite Hlg. apply full_chunks; [done | lia].
  - apply (IH (Datatypes.S k)); [lia | by injection Hlen | done].
Qed.

Lemma chunk_logits_length (first_call : nat) (chunks : list nat)
    (lgs : list (list (list (list F)))) :
  chunk_logits E input_ids attention_masks nz forward_batch_size
    first_call chunks = Ok lgs →
  length lgs = length chunks.
Proof. apply mapM_res_length. Qed.

Lemma mapM_project_uniform (lgs : list (list (list (list F))))
    (parts : list (list (list F))) (b : nat) :
  Forall2 (λ lg part, project lg = Ok part ∧ length part = length lg)
          lgs parts →
  Forall (λ lg, length lg = b) lgs →
  Forall (λ part, length part = b) parts.
Proof.
  induction 1 as [|lg part lgs parts [_ Hlen] _ IH]; [constructor|].
  inversion 1; subst. constructor; [congruence | auto].
Qed.

(** C2: with [num_copies >= forward_batch_size >= 1], an input of at
    least one row and a forward pass that succeeds on every chunk with
    one logits row per input row, the driver makes exactly
    [num_copies // forward_batch_size] forward calls and returns the
    chunk results concatenated in chunk order, a tensor of
    [(num_copies // forward_batch_size) * forward_batch_size] rows: the
    rows beyond the last full chunk are never sent to the model.  This
    holds for [LLMForward.__call__] (full logits) and for
    [LLMForwardLight.__call__] (answer-choice rows). *)
Theorem replicated_forward_row_count
    (lgs : list (list (list (list F)))) :
  let q := num_copies / forward_batch_size in
  tokenized_input.1 ≠ [] →
  0 < forward_batch_size →
  forward_batch_size ≤ num_copies →
  chunk_logits E input_ids attention_masks nz forward_batch_size
    (calls w) (seq 0 q) = Ok lgs →
  rows_kept input_ids forward_batch_size (seq 0 q) lgs = true →
  forallb (λ lg, projectable lg answer_token_ids) lgs = true →
  LLMForward_call E tokenized_input start_noise_idx end_noise_idx
      num_copies noise_level forward_batch_size w
    = (after_calls w q, Ok (Tensor (concat lgs))) ∧
  length (concat lgs) = q * forward_batch_size ∧
  ∃ parts : list (list (list F)),
    Forall2 (λ lg part, project lg = Ok part) lgs parts ∧
    LLMForwardLight_call E tokenized_input start_noise_idx end_noise_idx
        answer_token_ids num_copies noise_level forward_batch_size w
      = (after_calls w q, Ok (Tensor (concat parts))) ∧
    length (concat parts) = q * forward_batch_size.
Proof.
  intros q Hne Hb Hn Hl Hkept Hproj.
  assert (Hq : 0 < q) by (apply Nat.div_str_pos; lia).
  pose proof (chunk_logits_length _ _ _ Hl) as Hlen.
  rewrite length_seq in Hlen.
  pose proof (rows_kept_full lgs q 0 Hne (Nat.le_refl _) Hlen Hkept) as Hfull.
  destruct (mapM_project lgs Hproj) as (parts & Hm & HF).
  pose proof (mapM_project_uniform _ _ _ HF Hfull) as Hpfull.
  assert (Hplen : length parts = q)
    by (rewrite <- Hlen; symmetry; by eapply Forall2_length).
  split; [|split].
  - unfold LLMForward_call.
    assert (Hrep : ∀ t : ids2, cat (replicate num_copies t)
                               = Ok (repeat_rows num_copies t))
      by (intros t; apply cat_Ok; rewrite length_replicate; lia).
    unfold mbind at 1. unfold M_bind at 1. unfold lift at 1.
    rewrite Hrep.
    unfold mbind at 1. unfold M_bind at 1. unfold lift at 1.
    rewrite Hrep.
    unfold mbind at 1. unfold M_bind at 1. unfold lift at 1.
    rewrite chunk_range_Ok by done.
    unfold mbind at 1. unfold M_bind at 1.
    fold q. rewrite <- (app_nil_r (seq 0 q)).
    rewrite (guarded_chunks_seq E Ok _ _ _ _ q 0 [] [] w (calls w) lgs lgs);
      [| lia | done | apply mapM_Ok_id].
    simpl. unfold mbind, M_bind, lift, mret, M_ret.
    rewrite cat_Ok by lia. done.
  - rewrite (length_concat_uniform _ _ Hfull), Hlen. done.
  - exists parts. split; [|split].
    + eapply Forall2_impl; [exact HF|]. by intros ?? [? _].
    + unfold LLMForwardLight_call.
      unfold mbind at 1. unfold M_bind at 1. unfold lift at 1.
      rewrite chunk_range_Ok by done.
      unfold mbind at 1. unfold M_bind at 1.
      fold q. rewrite <- (app_nil_r (seq 0 q)).
      rewrite (bare_chunks_seq E project _ _ _ _ q 0 [] [] w (calls w)
                 lgs parts); [| lia | done | done].
      simpl. unfold mbind, M_bind, lift, mret, M_ret.
      rewrite cat_Ok by lia. done.
    + rewrite (length_concat_uniform _ _ Hpfull), Hplen. done.
Qed.

(** X8: The failure path of the three replicated drivers.  In
    [LLMForward.__call__] and [LLMForwardMultiprocessing.__call__] a
    [RuntimeError] raised by the forward pass on a chunk ends the call:
    one line is printed, the chunks after it are not run, the results of
    the chunks before it are dropped and the empty list is returned.
    [LLMForwardLight.__call__] runs the same loop without the handler:
    there the same error leaves the driver as an exception and nothing is
    printed. *)
Theorem forward_failure_returns_empty
    (k : nat) (msg : string) (lgs : list (list (list (list F)))) :
  let w' := mkWorld (heap w)
              (stdout w ++ ["cannot forward; error raised :  " ++ msg]%string)
              (calls w + k + 1) in
  k < num_copies / forward_batch_size →
  chunk_logits E input_ids attention_masks nz forward_batch_size
    (calls w) (seq 0 k) = Ok lgs →
  forallb (λ lg, projectable lg answer_token_ids) lgs = true →
  forward E (calls w + k)
    (chunk_rows forward_batch_size input_ids k)
    (chunk_rows forward_batch_size attention_masks k) nz
    = Raise (RuntimeError msg) →
  LLMForward_call E tokenized_input start_noise_idx end_noise_idx
      num_copies noise_level forward_batch_size w
    = (w', Ok EmptyList) ∧
  LLMForwardMultiprocessing_call E tokenized_input start_noise_idx
      end_noise_idx answer_token_ids num_copies noise_level
      forward_batch_size w
    = (w', Ok EmptyList) ∧
  LLMForwardLight_call E tokenized_input start_noise_idx end_noise_idx
      answer_token_ids num_copies noise_level forward_batch_size w
    = (after_calls w (k + 1), Raise (RuntimeError msg)).
Proof.
  intros w' Hk Hl Hproj Hf.
  assert (Hb : 0 < forward_batch_size)
    by (destruct forward_batch_size; [simpl in Hk; lia | lia]).
  assert (Hn : 0 < num_copies).
  { destruct num_copies; [|lia]. rewrite Nat.Div0.div_0_l in Hk. lia. }
  destruct (mapM_project lgs Hproj) as (parts & Hm & _).
  assert (Hsplit : seq 0 (num_copies / forward_batch_size)
                   = seq 0 k ++ k :: seq (Datatypes.S k)
                       (num_copies / forward_batch_size - k - 1)).
  { replace (num_copies / forward_batch_size)
      with (k + Datatypes.S (num_copies / forward_batch_size - k - 1))
      at 1 by lia.
    by rewrite seq_app. }
  assert (Hw : calls (after_calls w k) = calls w + k) by done.
  split; [|split].
  - unfold LLMForward_call.
    assert (Hrep : ∀ t : ids2, cat (replicate num_copies t)
                               = Ok (repeat_rows num_copies t))
      by (intros t; apply cat_Ok; rewrite length_replicate; lia).
    unfold mbind at 1. unfold M_bind at 1. unfold lift at 1.
    rewrite Hrep.
    unfold mbind at 1. unfold M_bind at 1. unfold lift at 1.
    rewrite Hrep.
    unfold mbind at 1. unfold M_bind at 1. unfold lift at 1.
    rewrite chunk_range_Ok by done.
    unfold mbind at 1. unfold M_bind at 1.
    rewrite Hsplit.
    rewrite (guarded_chunks_seq E Ok _ _ _ _ k 0 _ [] w (calls w) lgs lgs);
      [| lia | done | apply mapM_Ok_id].
    rewrite (guarded_chunks_fail E Ok _ _ _ _ k _ _ _ msg)
      by (by rewrite Hw).
    done.
  - unfold LLMForwardMultiprocessing_call.
    unfold mbind at 1. unfold M_bind at 1. unfold lift at 1.
    rewrite chunk_range_Ok by done.
    unfold mbind at 1. unfold M_bind at 1.
    rewrite Hsplit.
    rewrite (guarded_chunks_seq E project _ _ _ _ k 0 _ [] w (calls w)
               lgs parts); [| lia | done | done].
    rewrite (guarded_chunks_fail E project _ _ _ _ k _ _ _ msg)
      by (by rewrite Hw).
    done.
  - unfold LLMForwardLight_call.
    unfold mbind at 1. unfold M_bind at 1. unfold lift at 1.
    rewrite chunk_range_Ok by done.
    unfold mbind at 1. unfold M_bind at 1.
    rewrite Hsplit.
    rewrite (bare_chunks_seq E project _ _ _ _ k 0 _ [] w (calls w)
               lgs parts); [| lia | done | done].
    rewrite (bare_chunks_fail E project _ _ _ _ k _ _ _ (RuntimeError msg))
      by (by rewrite Hw).
    by rewrite after_calls_add.
Qed.

(** C9: with [num_copies < forward_batch_size] the chunk count is 0, no
    forward call is made and nothing is printed; [torch.cat] is handed
    an empty list and its [RuntimeError] leaves the driver, outside any
    handler.  (In [LLMForward.__call__] with [num_copies = 0] the same
    error of [torch.cat] comes from joining the empty list of replicas,
    before the chunk loop.) *)
Theorem too_few_copies_raise :
  num_copies < forward_batch_size →
  chunk_range num_copies forward_batch_size = Ok [] ∧
  LLMForward_call E tokenized_input start_noise_idx end_noise_idx
      num_copies noise_level forward_batch_size w
    = (w, Raise (RuntimeError
                   "torch.cat(): expected a non-empty list of Tensors")) ∧
  LLMForwardMultiprocessing_call E tokenized_input start_noise_idx
      end_noise_idx answer_token_ids num_copies noise_level
      forward_batch_size w
    = (w, Raise (RuntimeError
                   "torch.cat(): expected a non-empty list of Tensors")).
Proof.
  intros Hlt.
  assert (Hr : chunk_range num_copies forward_batch_size = Ok []).
  { rewrite chunk_range_Ok by lia. by rewrite Nat.div_small. }
  split; [done|]. split.
  - unfold LLMForward_call.
    destruct num_copies as [|n']; [done|].
    unfold mbind at 1. unfold M_bind at 1. unfold lift at 1.
    rewrite cat_Ok by (rewrite length_replicate; lia).
    unfold mbind at 1. unfold M_bind at 1. unfold lift at 1.
    rewrite cat_Ok by (rewrite length_replicate; lia).
    unfold mbind at 1. unfold M_bind at 1. unfold lift at 1.
    rewrite Hr. done.
  - unfold LLMForwardMultiprocessing_call.
    unfold mbind at 1. unfold M_bind at 1. unfold lift at 1.
    rewrite Hr. done.
Qed.

End ForwardClaims.

(** ** Probability extractors *)

Section ZipFacts.

Context {A B : Type}.

Lemma forallb_zip_lookup (P : A * B → bool) (l : list A) (k : list B)
    (i : nat) (a : A) (b : B) :
  forallb P (zip l k) = true → l !! i = Some a → k !! i = Some b →
  P (a, b) = true.
Proof.
  revert k i. induction l as [|x l IH]; intros [|y k] [|i]; try done; simpl;
    rewrite andb_true_iff; intros [Hx Hr].
  - by intros [=->] [=->].
  - by apply IH.
Qed.

End ZipFacts.

Section SelectFacts.

Context {F S : Type}.
Variable E : engine F S.

Lemma scorable_length (ids : ids2) (logits : list (list (list F))) :
  scorable E ids logits = true → length logits = length ids.
Proof.
  unfold scorable. rewrite andb_true_iff, bool_decide_eq_true. by intros [].
Qed.

Lemma scorable_lookup (ids : ids2) (logits : list (list (list F)))
    (i : nat) (row : list nat) :
  scorable E ids logits = true → ids !! i = Some row →
  ∃ lg, logits !! i = Some lg ∧ scorable_row E row lg = true.
Proof.
  intros Hs Hi. pose proof (scorable_length _ _ Hs) as Hlen.
  destruct (lookup_lt_is_Some_2 logits i) as [lg Hlg].
  { rewrite Hlen. by eapply lookup_lt_Some. }
  exists lg. split; [done|].
  unfold scorable in Hs. apply andb_true_iff in Hs as [_ Hs].
  exact (forallb_zip_lookup _ _ _ _ _ _ Hs Hi Hlg).
Qed.

Lemma scorable_row_length (row : list nat) (lg : list (list F)) :
  scorable_row E row lg = true → length lg = length row.
Proof.
  unfold scorable_row. rewrite andb_true_iff, bool_decide_eq_true.
  by intros [].
Qed.

(** The token at position [j + 1] indexes the distribution of
    position [j]. *)
Lemma scorable_row_token (row : list nat) (lg : list (list F))
    (j tok : nat) :
  scorable_row E row lg = true → row !! (Datatypes.S j) = Some tok →
  ∃ dist p, lg !! j = Some dist ∧ softmax E dist !! tok = Some p ∧
            scored E lg (j, tok) = p.
Proof.
  intros Hs Ht. pose proof (scorable_row_length _ _ Hs) as Hlen.
  destruct (lookup_lt_is_Some_2 lg j) as [dist Hd].
  { apply lookup_lt_Some in Ht. lia. }
  unfold scorable_row in Hs. apply andb_true_iff in Hs as [_ Hs].
  assert (Hdrop : drop 1 row !! j = Some tok) by (by rewrite lookup_drop).
  pose proof (forallb_zip_lookup _ _ _ _ _ _ Hs Hd Hdrop) as Hin.
  simpl in Hin. apply bool_decide_eq_true in Hin.
  destruct (lookup_lt_is_Some_2 _ _ Hin) as [p Hp].
  exists dist, p. repeat split; try done.
  unfold scored. simpl. rewrite Hd. simpl. by rewrite Hp.
Qed.

(** The advanced index of line 130 on a scorable row. *)
Lemma gather_scorable (row : list nat) (lg : list (list F)) :
  scorable_row E row lg = true →
  gather (map (softmax E) lg) (seq 0 (length lg - 1)) (drop 1 row)
  = Ok (map (scored E lg) (zip (seq 0 (length lg - 1)) (drop 1 row))).
Proof.
  intros Hs. pose proof (scorable_row_length _ _ Hs) as Hlen.
  unfold gather, index_pairs.
  rewrite decide_True by (rewrite length_seq, length_drop; lia).
  simpl. apply mapM_res_total. apply Forall_forall.
  intros [j tok] Hin. apply list_elem_of_lookup in Hin as [n Hn].
  apply lookup_zip_with_Some in Hn as (j' & tok' & [=<- <-] & Hj & Ht).
  apply lookup_seq in Hj as [-> Hn']. simpl in *.
  rewrite lookup_drop in Ht.
  destruct (scorable_row_token _ _ _ _ Hs Ht) as (dist & p & Hd & Hp & Hsc).
  rewrite (getitem_Ok (map (softmax E) lg) n (softmax E dist))
    by (by rewrite list_lookup_fmap, Hd).
  simpl. by rewrite (getitem_Ok _ _ _ Hp), Hsc.
Qed.

Lemma select_row_Ok (row : list nat) (lg : list (list F)) (old : list F) :
  scorable_row E row lg = true → length old = length row →
  select_row (map (softmax E) lg) row old = Ok (filled_row E row lg old).
Proof.
  intros Hs Hold. pose proof (scorable_row_length _ _ Hs) as Hlen.
  unfold select_row. rewrite length_map, (gather_scorable _ _ Hs). simpl.
  unfold setitem_from1. rewrite decide_True; [done|].
  rewrite length_map, length_zip_with, length_seq, length_drop. lia.
Qed.

Lemma decode_walk_Ok (row : list nat) (lg : list (list F)) :
  length lg = length row →
  ∃ toks, decode_walk E (map (softmax E) lg) row = Ok toks.
Proof.
  intros Hlen. unfold decode_walk. rewrite length_map.
  assert (Hall : Forall (λ j, ∃ t, row !! (j + 1) = Some t)
                        (seq 0 (length lg - 1))).
  { apply Forall_forall. intros j Hj. apply elem_of_seq in Hj.
    apply lookup_lt_is_Some_2. lia. }
  induction Hall as [|j js [t Ht] _ [toks IH]].
  - by exists [].
  - exists (decode E [t] :: toks).
    rewrite mapM_res_cons, (getitem_Ok _ _ _ Ht). simpl. by rewrite IH.
Qed.

(** Lookups in a filled row. *)
Lemma filled_row_length (row : list nat) (lg : list (list F))
    (old : list F) :
  length lg = length row → length old = length row →
  length (filled_row E row lg old) = length row.
Proof.
  intros Hlg Hold. unfold filled_row.
  rewrite length_app, length_take, length_map, length_zip_with,
    length_seq, length_drop. lia.
Qed.

Lemma filled_row_0 (row : list nat) (lg : list (list F)) (old : list F)
    (x : F) :
  old !! 0 = Some x → filled_row E row lg old !! 0 = Some x.
Proof. destruct old as [|y old]; [done|]. by intros [=->]. Qed.

Lemma filled_row_S (row : list nat) (lg : list (list F)) (old : list F)
    (j tok : nat) :
  scorable_row E row lg = true → length old = length row →
  row !! (Datatypes.S j) = Some tok →
  ∃ dist p, lg !! j = Some dist ∧ softmax E dist !! tok = Some p ∧
            filled_row E row lg old !! (Datatypes.S j) = Some p.
Proof.
  intros Hs Hold Ht. pose proof (scorable_row_length _ _ Hs) as Hlen.
  destruct (scorable_row_token _ _ _ _ Hs Ht) as (dist & p & Hd & Hp & Hsc).
  exists dist, p. repeat split; try done.
  unfold filled_row.
  assert (Hj : Datatypes.S j < length row) by (by eapply lookup_lt_Some).
  destruct old as [|y old]; [simpl in Hold; lia|]. simpl.
  rewrite list_lookup_fmap.
  assert (Hz : zip (seq 0 (length lg - 1)) (drop 1 row) !! j = Some (j, tok)).
  { apply lookup_zip_with_Some. exists j, tok. repeat split.
    - apply lookup_seq. lia.
    - by rewrite lookup_drop. }
  rewrite Hz. simpl. by rewrite Hsc.
Qed.

End SelectFacts.

Section ExtractorFacts.

Context {F S : Type}.
Variable E : engine F S.

Variables (ids : ids2) (logits : list (list (list F))).
Hypothesis Hscorable : scorable E ids logits = true.

Local Abbreviation probs := (map (map (softmax E)) logits).
Local Abbreviation ones := (ones_like E ids).

(** Row [i] of the grid after the loop of the batch extractors. *)
Local Abbreviation batch_row :=
  (λ i, filled_row E (ids !!! i) (logits !!! i) (ones !!! i)).

Lemma ones_lookup (i : nat) (row : list nat) :
  ids !! i = Some row → ones !! i = Some (map (λ _, one E) row).
Proof. intros Hi. unfold ones_like. by rewrite list_lookup_fmap, Hi. Qed.

Lemma select_rows_seq (walk : bool) (m k : nat) (filled : list (list F)) :
  length filled = k → k + m = length ids →
  select_rows E walk (seq k m) ids probs (filled ++ drop k ones)
  = Ok (filled ++ map batch_row (seq k m)).
Proof.
  revert k filled. induction m as [|m IH]; intros k filled Hk Hm.
  - simpl. rewrite drop_ge by (unfold ones_like; rewrite length_map; lia).
    done.
  - destruct (lookup_lt_is_Some_2 ids k) as [row Hrow]; [lia|].
    destruct (scorable_lookup E _ _ _ _ Hscorable Hrow) as (lg & Hlg & Hs).
    pose proof (scorable_row_length E _ _ Hs) as Hlen.
    pose proof (ones_lookup _ _ Hrow) as Hone.
    simpl seq. simpl select_rows.
    rewrite (getitem_Ok _ _ _ Hrow). simpl.
    rewrite (getitem_Ok probs k (map (softmax E) lg))
      by (by rewrite list_lookup_fmap, Hlg).
    simpl.
    assert (Hwalk : ∃ toks,
               (if walk then decode_walk E (map (softmax E) lg) row
                else mret []) = Ok toks).
    { destruct walk; [by apply decode_walk_Ok | by exists []]. }
    destruct Hwalk as [toks ->]. simpl.
    rewrite (drop_S _ _ _ Hone).
    rewrite (getitem_Ok (filled ++ _) k (map (λ _, one E) row))
      by (by rewrite lookup_app_r, Hk, Nat.sub_diag by lia).
    simpl. rewrite (select_row_Ok E _ _ _ Hs) by (by rewrite length_map).
    simpl. rewrite insert_app_r_alt by lia. rewrite Hk, Nat.sub_diag. simpl.
    rewrite (list_lookup_total_correct _ _ _ Hrow),
      (list_lookup_total_correct _ _ _ Hlg),
      (list_lookup_total_correct _ _ _ Hone).
    rewrite cons_middle, app_assoc.
    rewrite IH; [| rewrite length_app; simpl; lia | lia].
    by rewrite <- app_assoc.
Qed.

Lemma batch_rows_aligned :
  aligned_with E own_row ids logits (map batch_row (seq 0 (length ids))).
Proof.
  split; [by rewrite length_map, length_seq|].
  intros i row Hrow.
  destruct (scorable_lookup E _ _ _ _ Hscorable Hrow) as (lg & Hlg & Hs).
  pose proof (scorable_row_length E _ _ Hs) as Hlen.
  pose proof (ones_lookup _ _ Hrow) as Hone.
  assert (Hi : i < length ids) by (by eapply lookup_lt_Some).
  exists (filled_row E row lg (map (λ _, one E) row)).
  split; [|split; [|split]].
  - rewrite list_lookup_fmap, lookup_seq_lt by done. simpl.
    by rewrite (list_lookup_total_correct _ _ _ Hrow),
      (list_lookup_total_correct _ _ _ Hlg),
      (list_lookup_total_correct _ _ _ Hone).
  - apply filled_row_length; [done | by rewrite length_map].
  - intros Hpos. apply filled_row_0.
    destruct row; [simpl in Hpos; lia | done].
  - intros [|j] Hj1 Hj2; [lia|].
    destruct (lookup_lt_is_Some_2 row (Datatypes.S j) Hj2) as [tok Htok].
    destruct (filled_row_S E row lg (map (λ _, one E) row) j tok Hs)
      as (dist & p & Hd & Hp & Hf); [by rewrite length_map | done |].
    exists row, tok, p. repeat split; try done.
    unfold prob_at, own_row, row_0. simpl. rewrite Nat.sub_0_r, Hlg. simpl.
    rewrite Hd. done.
Qed.

(** The forward extractors: one vector from row 0, written into every
    row. *)
Local Abbreviation forward_row :=
  (λ old, filled_row E (ids !!! 0) (logits !!! 0) old).

Lemma forward_rows_Ok :
  0 < length ids → rectangular ids = true →
  (probs0 ← getitem probs 0;
   ids0 ← getitem ids 0;
   vals ← gather probs0 (seq 0 (shape1 probs - 1)) (drop 1 ids0);
   mapM (λ row, setitem_from1 row vals) ones)
  = Ok (map forward_row ones).
Proof.
  intros Hpos Hrect.
  destruct (lookup_lt_is_Some_2 ids 0 Hpos) as [row Hrow].
  destruct (scorable_lookup E _ _ _ _ Hscorable Hrow) as (lg & Hlg & Hs).
  pose proof (scorable_row_length E _ _ Hs) as Hlen.
  rewrite (getitem_Ok probs 0 (map (softmax E) lg))
    by (by rewrite list_lookup_fmap, Hlg).
  simpl. rewrite (getitem_Ok _ _ _ Hrow). simpl.
  assert (Hshape : shape1 probs = length lg).
  { destruct logits as [|l0 ls]; [done|]. injection Hlg as ->. simpl.
    by rewrite length_map. }
  assert (Hshape' : shape1 ids = length row).
  { destruct ids as [|r0 rs]; [done|]. by injection Hrow as ->. }
  rewrite Hshape, (gather_scorable E _ _ Hs). simpl.
  rewrite (list_lookup_total_correct _ _ _ Hrow),
    (list_lookup_total_correct _ _ _ Hlg).
  apply mapM_res_total. apply Forall_forall. intros old Hold.
  unfold ones_like in Hold. apply list_elem_of_fmap in Hold as (r & -> & Hr).
  unfold rectangular in Hrect. rewrite forallb_forall in Hrect.
  apply list_elem_of_In, Hrect, bool_decide_eq_true in Hr.
  unfold setitem_from1. rewrite decide_True; [done|].
  rewrite !length_map, length_zip_with, length_seq, length_drop. lia.
Qed.

Lemma forward_rows_aligned :
  0 < length ids → rectangular ids = true →
  aligned_with E row_0 ids logits (map forward_row ones).
Proof.
  intros Hpos Hrect.
  destruct (lookup_lt_is_Some_2 ids 0 Hpos) as [row0 Hrow0].
  destruct (scorable_lookup E _ _ _ _ Hscorable Hrow0) as (lg & Hlg & Hs).
  pose proof (scorable_row_length E _ _ Hs) as Hlen.
  assert (Hshape' : shape1 ids = length row0).
  { destruct ids as [|r0 rs]; [done|]. by injection Hrow0 as ->. }
  split; [unfold ones_like; by rewrite !length_map|].
  intros i row Hrow.
  assert (Hrl : length row = length row0).
  { unfold rectangular in Hrect. rewrite forallb_forall in Hrect.
    assert (Hin : In row ids)
      by (apply list_elem_of_In; by eapply list_elem_of_lookup_2).
    apply Hrect, bool_decide_eq_true in Hin. congruence. }
  exists (filled_row E row0 lg (map (λ _, one E) row)).
  split; [|split; [|split]].
  - rewrite list_lookup_fmap, (ones_lookup _ _ Hrow). simpl.
    by rewrite (list_lookup_total_correct _ _ _ Hrow0),
      (list_lookup_total_correct _ _ _ Hlg).
  - unfold filled_row.
    rewrite length_app, length_take, !length_map, length_zip_with,
      length_seq, length_drop. lia.
  - intros Hp. apply filled_row_0. destruct row; [simpl in Hp; lia | done].
  - intros [|j] Hj1 Hj2; [lia|].
    destruct (lookup_lt_is_Some_2 row0 (Datatypes.S j)) as [tok Htok];
      [lia|].
    destruct (filled_row_S E row0 lg (map (λ _, one E) row) j tok Hs)
      as (dist & p & Hd & Hp & Hf); [by rewrite length_map | done |].
    exists row0, tok, p. repeat split; try done.
    unfold prob_at, own_row, row_0. simpl. rewrite Nat.sub_0_r, Hlg. simpl.
    rewrite Hd. done.
Qed.

(** With a single row, scoring against row 0 is scoring every row
    against itself. *)
Lemma aligned_single_row (sp : list (list F)) :
  length ids = 1 →
  aligned_with E row_0 ids logits sp → aligned_with E own_row ids logits sp.
Proof.
  intros Hone [Hlen H]. split; [done|]. intros i row Hrow.
  assert (i = 0) as -> by (apply lookup_lt_Some in Hrow; lia).
  exact (H 0 row Hrow).
Qed.

End ExtractorFacts.

Section ExtractorClaims.

Context {F S : Type}.
Variable E : engine F S.

Lemma batch_get_probs_Ok (walk : bool) (batch : list string)
    (ids mask : ids2) (logits : list (list (list F))) (w : world) :
  tokenize E batch = Ok (ids, mask) →
  forward E (calls w) ids mask NoNoise = Ok logits →
  scorable E ids logits = true →
  ∃ sp, batch_get_probs E walk batch w = (after_calls w 1, Ok sp) ∧
        aligned_with E own_row ids logits sp.
Proof.
  intros Htok Hfw Hs. eexists. split; [|by apply batch_rows_aligned].
  unfold batch_get_probs, mbind, M_bind, lift, engine_call, after_calls.
  rewrite Htok. simpl. rewrite Hfw. simpl. rewrite Nat.add_1_r.
  pose proof (select_rows_seq E ids logits Hs walk (length ids) 0 []
                eq_refl eq_refl) as H.
  simpl in H. rewrite drop_0 in H. by rewrite H.
Qed.

(** C1 (amended): on logits that can score the batch, the batch
    extractors [LLM.get_probs] and [BatchLLM.get_probs] return a grid of
    the shape of [input_ids] whose column 0 is 1 and whose entry
    [(i, j)], [j >= 1], is the softmax probability that position [j-1]
    of row [i] gives to token [input_ids[i, j]], for every row [i].
    [LLMForward.get_probs], written for a [1 x len] input, reads one
    vector off row 0 and stores it in every row: entry [(i, j)] is the
    probability that position [j-1] of row 0 gives to
    [input_ids[0, j]].  On a one-row input that is the same
    alignment. *)
Theorem get_probs_shift_by_one
    (batch : list string) (ids mask : ids2)
    (logits : list (list (list F)))
    (tokenized_input : ids2 * ids2) (logits1 : list (list (list F)))
    (w : world) :
  tokenize E batch = Ok (ids, mask) →
  forward E (calls w) ids mask NoNoise = Ok logits →
  scorable E ids logits = true →
  forward E (calls w) tokenized_input.1 tokenized_input.2 NoNoise
    = Ok logits1 →
  scorable E tokenized_input.1 logits1 = true →
  rectangular tokenized_input.1 = true →
  0 < length tokenized_input.1 →
  (∃ sp, LLM_get_probs E batch w = (after_calls w 1, Ok sp) ∧
         aligned_with E own_row ids logits sp) ∧
  (∃ sp, BatchLLM_get_probs E batch w = (after_calls w 1, Ok sp) ∧
         aligned_with E own_row ids logits sp) ∧
  (∃ sp, LLMForward_get_probs E tokenized_input w
           = (after_calls w 1, Ok sp) ∧
         aligned_with E row_0 tokenized_input.1 logits1 sp ∧
         (length tokenized_input.1 = 1 →
          aligned_with E own_row tokenized_input.1 logits1 sp)).
Proof.
  intros Htok Hfw Hs Hfw1 Hs1 Hrect Hpos.
  split; [by eapply batch_get_probs_Ok|].
  split; [by eapply batch_get_probs_Ok|].
  eexists. split; [|split].
  - unfold LLMForward_get_probs, mbind, M_bind, lift, engine_call,
      after_calls.
    rewrite Hfw1. simpl. rewrite Nat.add_1_r.
    pose proof (forward_rows_Ok E _ _ Hs1 Hpos Hrect) as H.
    unfold mbind in H. by rewrite H.
  - by apply forward_rows_aligned.
  - intros Hone. apply aligned_single_row; [done|].
    by apply forward_rows_aligned.
Qed.

End ExtractorClaims.

Section RealFacts.
Import RealEngine.
Local Open Scope R_scope.

Lemma exp_0_lt_exp_1 : exp 0 < exp 1.
Proof. apply exp_increasing. lra. Qed.

Lemma two_way_softmax :
  softmax [0; 1] = [exp 0 / (exp 0 + (exp 1 + 0)); exp 1 / (exp 0 + (exp 1 + 0))].
Proof. reflexivity. Qed.

Lemma two_way_softmax_apart :
  exp 0 / (exp 0 + (exp 1 + 0)) ≠ exp 1 / (exp 0 + (exp 1 + 0)).
Proof.
  pose proof exp_0_lt_exp_1. pose proof (exp_pos 0). pose proof (exp_pos 1).
  intros Heq. apply (f_equal (λ x, x * (exp 0 + (exp 1 + 0)))) in Heq.
  field_simplify in Heq; lra.
Qed.
End RealFacts.

(** C1, as the specification words it, fails for [LLMForward.get_probs]:
    on a batch of two rows that differ in their second token, row 1 of the
    grid holds the probability of the token of row 0, not of its own. *)
Lemma forward_extractor_scores_rows_against_row_0 :
  let ti : ids2 * ids2 := RealEngine.two_rows in
  let w := mkWorld ∅ [] 0 in
  ∃ logits sp,
    forward RealEngine.two_tokens (calls w) ti.1 ti.2 NoNoise = Ok logits ∧
    scorable RealEngine.two_tokens ti.1 logits = true ∧
    rectangular ti.1 = true ∧
    (LLMForward_get_probs RealEngine.two_tokens ti w).2 = Ok sp ∧
    ¬ aligned_with RealEngine.two_tokens own_row ti.1 logits sp.
Proof.
  intros ti w.
  exists [[[0%R; 1%R]; [0%R; 1%R]]; [[0%R; 1%R]; [0%R; 1%R]]].
  eexists. split; [reflexivity|]. split; [reflexivity|].
  split; [reflexivity|]. split; [reflexivity|].
  intros [_ H]. destruct (H 1 [0; 1] eq_refl) as (sprow & Hsp & _ & _ & Hj).
  destruct (Hj 1) as (srow & tok & p & Hsrow & Htok & Hp & Hspj);
    [lia | simpl; lia |].
  injection Hsrow as <-. injection Htok as <-. injection Hsp as <-.
  injection Hp as <-. injection Hspj as Heq.
  exact (two_way_softmax_apart Heq).
Qed.

(** ** The theorems at concrete inputs *)

Module Instances.

Lemma get_probs_shift_by_one_witness :
  ∃ ids mask logits logits1 sp1 sp2,
    tokenize Toy.sound Toy.prompts = Ok (ids, mask) ∧
    forward Toy.sound 0 ids mask NoNoise = Ok logits ∧
    forward Toy.sound 0 Toy.one_prompt.1 Toy.one_prompt.2 NoNoise
      = Ok logits1 ∧
    (LLM_get_probs Toy.sound Toy.prompts Toy.w0).2 = Ok sp1 ∧
    aligned_with Toy.sound own_row ids logits sp1 ∧
    (LLMForward_get_probs Toy.sound Toy.one_prompt Toy.w0).2 = Ok sp2 ∧
    aligned_with Toy.sound own_row Toy.one_prompt.1 logits1 sp2.
Proof.
  edestruct (get_probs_shift_by_one Toy.sound Toy.prompts)
    with (tokenized_input := Toy.one_prompt) (w := Toy.w0)
    as ((sp1 & H1 & A1) & _ & (sp2 & H2 & _ & A2));
    [reflexivity | reflexivity | reflexivity | reflexivity | reflexivity
    | reflexivity | simpl; lia |].
  do 4 eexists. exists sp1, sp2.
  split; [reflexivity|]. split; [reflexivity|]. split; [reflexivity|].
  rewrite H1, H2.
  split; [reflexivity|]. split; [exact A1|]. split; [reflexivity|].
  exact (A2 eq_refl).
Defined.

Lemma replicated_forward_row_count_witness :
  ∃ t t',
    LLMForward_call Toy.small Toy.one_prompt 0 1 10 7 4 Toy.w0
      = (after_calls Toy.w0 2, Ok (Tensor t)) ∧
    length t = 8 ∧
    LLMForwardLight_call Toy.small Toy.one_prompt 0 1 [5; 9; 2]%Z 10 7 4 Toy.w0
      = (after_calls Toy.w0 2, Ok (Tensor t')) ∧
    length t' = 8.
Proof.
  edestruct (replicated_forward_row_count Toy.small Toy.one_prompt 0 1
               [5; 9; 2]%Z 10 7 4 Toy.w0)
    as (H1 & L1 & parts & _ & H2 & L2);
    [discriminate | lia | lia | reflexivity | reflexivity | reflexivity |].
  eexists. exists (concat parts).
  split; [exact H1|]. split; [exact L1|]. split; [exact H2 | exact L2].
Defined.

(** C3: the forward pass raises a [RuntimeError] on the second chunk of
    a call with ten copies in chunks of four.  The claim asks for a
    printed line and the empty list, which is what
    [LLMForward.__call__] and [LLMForwardMultiprocessing.__call__] give;
    [LLMForwardLight.__call__], the same loop without the [try], lets the
    error out as an exception and prints nothing. *)
Lemma light_driver_raises_on_forward_failure :
  forward (Toy.small_failing 1) 1
    (chunk_rows 4 (repeat_rows 10 Toy.one_prompt.1) 1)
    (chunk_rows 4 (repeat_rows 10 Toy.one_prompt.2) 1)
    (NoiseLevel 0 1 7)
    = Raise (RuntimeError "CUDA out of memory") ∧
  LLMForwardLight_call (Toy.small_failing 1) Toy.one_prompt 0 1 [5; 9; 2]%Z
      10 7 4 Toy.w0
    = (after_calls Toy.w0 2, Raise (RuntimeError "CUDA out of memory")) ∧
  (LLMForwardLight_call (Toy.small_failing 1) Toy.one_prompt 0 1 [5; 9; 2]%Z
     10 7 4 Toy.w0).2 ≠ Ok EmptyList ∧
  LLMForwardMultiprocessing_call (Toy.small_failing 1) Toy.one_prompt 0 1
      [5; 9; 2]%Z 10 7 4 Toy.w0
    = (mkWorld (heap Toy.w0)
         ["cannot forward; error raised :  CUDA out of memory"] 2,
       Ok EmptyList).
Proof.
  split; [reflexivity|]. split; [reflexivity|].
  split; [discriminate | reflexivity].
Qed.

Lemma forward_failure_returns_empty_witness :
  (LLMForward_call (Toy.small_failing 1) Toy.one_prompt 0 1 10 7 4
     Toy.w0).2 = Ok EmptyList ∧
  (LLMForwardMultiprocessing_call (Toy.small_failing 1) Toy.one_prompt 0 1
     [5; 9; 2]%Z 10 7 4 Toy.w0).2 = Ok EmptyList ∧
  stdout (LLMForward_call (Toy.small_failing 1) Toy.one_prompt 0 1 10 7 4
            Toy.w0).1
    = ["cannot forward; error raised :  CUDA out of memory"].
Proof.
  edestruct (forward_failure_returns_empty (Toy.small_failing 1)
               Toy.one_prompt 0 1 [5; 9; 2]%Z 10 7 4 Toy.w0 1
               "CUDA out of memory")
    as (H1 & H2 & _);
    [simpl; lia | reflexivity | reflexivity | reflexivity |].
  rewrite H1, H2. repeat split.
Defined.

Lemma generation_failure_returns_empty_witness :
  (LLM_call Toy.no_generation 1%positive 0 1 5 100 (Some "xyz")
     Toy.w0).2 = Ok [] ∧
  (BatchLLM_call Toy.no_generation 1%positive [0; 0; 0] [1; 1; 1] 5 100
     (Some "xyz") Toy.w0).2 = Ok [] ∧
  stdout (LLM_call Toy.no_generation 1%positive 0 1 5 100 (Some "xyz")
            Toy.w0).1
    = ["CUDA out of memory"].
Proof.
  edestruct (generation_failure_returns_empty Toy.no_generation 1%positive
               Toy.w0 0 1 [0; 0; 0] [1; 1; 1] 5 100 (Some "xyz"))
    as [H1 H2]; [reflexivity | reflexivity | reflexivity |].
  rewrite H1, H2. repeat split.
Defined.

Lemma answer_choice_logits_select_last_position_witness :
  let logits := [[[0; 0; 0; 0; 0; 0; 0; 0; 0; 0];
                  [10; 11; 12; 13; 14; 15; 16; 17; 18; 19]]] in
  ∃ grid row,
    get_answer_choice_logits Toy.small logits [5; -1; 2]%Z = Ok grid ∧
    length grid = 1 ∧
    grid !! 0 = Some row ∧
    row !! 0 = Some 15 ∧ row !! 1 = Some 19 ∧ row !! 2 = Some 12.
Proof.
  intros logits.
  edestruct (answer_choice_logits_select_last_position Toy.small logits
               [5; -1; 2]%Z)
    as (grid & H & Hlen & _ & Hrows); [reflexivity|].
  destruct (Hrows 0) as (row & Hrow & Hk); [simpl; lia|].
  destruct (Hk 0 5%Z eq_refl) as (v0 & Hv0 & Hr0 & _).
  destruct (Hk 1 (-1)%Z eq_refl) as (v1 & Hv1 & Hr1 & _).
  destruct (Hk 2 2%Z eq_refl) as (v2 & Hv2 & Hr2 & _).
  injection Hv0 as <-. injection Hv1 as <-. injection Hv2 as <-.
  exists grid, row. repeat split; done.
Defined.

(** C8, as the specification words it, fails for an extra prompt that
    is the empty string: it is supplied, yet the batch is tokenized
    without it and the driver returns as many continuations as for the
    call without an extra prompt. *)
Lemma empty_extra_prompt_not_appended :
  (LLM_call Toy.sound 1%positive 0 1 5 100 (Some "") Toy.w0).2
    = Ok ["!"; "!"] ∧
  (LLM_call Toy.sound 1%positive 0 1 5 100 None Toy.w0).2
    = Ok ["!"; "!"] ∧
  (BatchLLM_call Toy.sound 1%positive [0; 0] [1; 1] 5 100 (Some "")
     Toy.w0).2 = Ok ["!"; "!"] ∧
  heap (LLM_call Toy.sound 1%positive 0 1 5 100 (Some "") Toy.w0).1
    !! 1%positive = Some ["ab"; "c"].
Proof. repeat split. Qed.

Lemma extra_prompt_adds_one_continuation_witness :
  ∃ conts conts' : list string,
    (LLM_call Toy.sound 1%positive 0 1 5 100 (Some "xyz") Toy.w0).2
      = Ok conts ∧
    (LLM_call Toy.sound 1%positive 0 1 5 100 None Toy.w0).2 = Ok conts' ∧
    length conts' = 2 ∧
    length conts = 3 ∧
    last conts = Some "!".
Proof.
  edestruct (extra_prompt_adds_one_continuation Toy.sound 1%positive Toy.w0
               0 1 [0; 0; 0] [1; 1; 1] 5 100 "xyz")
    as (c1 & c2 & c1' & c2' & H1 & H1' & _ & _ & L1' & _ & L1 & _ &
        row & out1 & out2 & Hrow & Hout1 & _ & Hlast & _);
    [discriminate | reflexivity | reflexivity | reflexivity | reflexivity
    | reflexivity | reflexivity | reflexivity | reflexivity | reflexivity
    | reflexivity | reflexivity | reflexivity |].
  injection Hrow as <-. injection Hout1 as <-.
  exists c1, c1'. split; [exact H1|]. split; [exact H1'|].
  split; [exact L1'|]. split; [by rewrite L1, L1'|]. exact Hlast.
Defined.

Lemma too_few_copies_raise_witness :
  LLMForward_call Toy.small Toy.one_prompt 0 1 3 7 4 Toy.w0
    = (Toy.w0,
       Raise (RuntimeError
                "torch.cat(): expected a non-empty list of Tensors")).
Proof.
  edestruct (too_few_copies_raise Toy.small Toy.one_prompt 0 1 [5; 9; 2]%Z
               3 7 4 Toy.w0) as (_ & H & _); [lia|].
  exact H.
Defined.

Lemma extra_prompt_mutates_caller_batch_witness :
  heap (LLM_call Toy.sound 1%positive 0 1 5 100 (Some "xyz") Toy.w0).1
    !! 1%positive = Some ["ab"; "c"; "xyz"] ∧
  heap (LLM_call Toy.sound 1%positive 0 1 5 100 (Some "") Toy.w0).1
    = heap Toy.w0.
Proof.
  edestruct (extra_prompt_mutates_caller_batch Toy.sound 1%positive Toy.w0
               0 1 [0; 0] [1; 1] 5 100 "xyz")
    as (H1 & _ & _ & _ & H2 & _);
    [discriminate | reflexivity | reflexivity | reflexivity | reflexivity
    | reflexivity | reflexivity |].
  rewrite H1, H2. split; reflexivity.
Defined.

End Instances.

(** * Further properties of the drivers *)

Lemma str_from_app (a b : string) :
  str_from (String.length a) (a ++ b)%string = b.
Proof.
  induction a as [|c a IH].
  - by destruct b.
  - rewrite app_String. simpl. exact IH.
Qed.

Section EnumerateBounds.

Context {A B C : Type}.

Lemma mapM_enumerate_from_short (h : A → B → C) (G : list A) (outs : list B)
    (k : nat) :
  k ≤ length G → length G < k + length outs →
  mapM (λ io : nat * B, g ← getitem G io.1; mret (h g io.2))
       (zip (seq k (length outs)) outs)
  = Raise (IndexError "index out of range").
Proof.
  revert k. induction outs as [|o outs IH]; intros k Hk Hlen; simpl in Hlen.
  - lia.
  - simpl length. simpl seq. simpl zip. rewrite mapM_res_cons. simpl.
    destruct (G !! k) as [g|] eqn:Hg.
    + rewrite (getitem_Ok _ _ _ Hg). simpl.
      apply lookup_lt_Some in Hg. rewrite IH by lia. done.
    + unfold getitem. by rewrite Hg.
Qed.

End EnumerateBounds.

Lemma trim_outputs_surplus {F S : Type} (E : engine F S) (ids outs : ids2) :
  length ids < length outs →
  trim_outputs E ids outs = Raise (IndexError "index out of range").
Proof.
  intros Hlen. unfold trim_outputs.
  pose proof (mapM_enumerate_from_short (λ g o, str_from g o)
    (map (λ row, String.length (decode E row)) ids)
    (map (decode E) outs) 0) as H.
  rewrite !length_map in H. rewrite length_map. apply H; lia.
Qed.

(** ** Generation drivers: what is caught and what is not *)

Section GenerationPaths.

Context {F S : Type}.
Variable E : engine F S.

Variables (batch : loc) (w : world).
Variables (start_noise_idx end_noise_idx : nat)
          (start_noise_idx_list end_noise_idx_list : list nat)
          (noise_scale : S) (max_new_tokens : nat)
          (original_prompt : option string).

Local Abbreviation shared :=
  (NoiseScale start_noise_idx end_noise_idx noise_scale).
Local Abbreviation per_row :=
  (NoiseScaleList start_noise_idx_list end_noise_idx_list noise_scale).
Local Abbreviation w1 := (append_original_prompt batch original_prompt w).1.
Local Abbreviation call1 :=
  (LLM_call E batch start_noise_idx end_noise_idx noise_scale max_new_tokens).
Local Abbreviation call2 :=
  (BatchLLM_call E batch start_noise_idx_list end_noise_idx_list noise_scale
     max_new_tokens).

(** X2: The tokenizer runs before the [try]: whatever it raises, a
    [RuntimeError] included, leaves the driver as an exception.  No call
    into the model is made and nothing is printed, but the extra prompt is
    already in the caller's list. *)
Theorem tokenizer_error_propagates (e : exn) :
  tokenize E (heap w1 !!! batch) = Raise e →
  call1 original_prompt w = (mkWorld (heap w1) (stdout w) (calls w), Raise e) ∧
  call2 original_prompt w = (mkWorld (heap w1) (stdout w) (calls w), Raise e).
Proof.
  intros Htok. unfold LLM_call, BatchLLM_call.
  rewrite (generation_driver_unfold E _ _ LLM_prints),
    (generation_driver_unfold E _ _ BatchLLM_prints).
  by rewrite Htok.
Qed.

(** X3: The handler is for [RuntimeError] only: any other exception of
    [generate] leaves the driver, after the one call, with nothing
    printed. *)
Theorem generate_other_error_propagates (ids mask : ids2) (e : exn) :
  tokenize E (heap w1 !!! batch) = Ok (ids, mask) →
  is_runtime_error e = false →
  generate E (calls w) ids mask max_new_tokens shared = Raise e →
  generate E (calls w) ids mask max_new_tokens per_row = Raise e →
  call1 original_prompt w
    = (mkWorld (heap w1) (stdout w) (Datatypes.S (calls w)), Raise e) ∧
  call2 original_prompt w
    = (mkWorld (heap w1) (stdout w) (Datatypes.S (calls w)), Raise e).
Proof.
  intros Htok He Hg1 Hg2. unfold LLM_call, BatchLLM_call.
  rewrite (generation_driver_unfold E _ _ LLM_prints),
    (generation_driver_unfold E _ _ BatchLLM_prints).
  by rewrite Htok, Hg1, Hg2, He.
Qed.

(** X4: On success the continuations keep the order of the batch: entry [i]
    is the decoded output of row [i] without as many leading characters
    as the decoded input of row [i] has; nothing is printed and one call
    is made. *)
Theorem continuations_follow_batch_order (ids mask outs1 outs2 : ids2) :
  tokenize E (heap w1 !!! batch) = Ok (ids, mask) →
  generate E (calls w) ids mask max_new_tokens shared = Ok outs1 →
  generate E (calls w) ids mask max_new_tokens per_row = Ok outs2 →
  length outs1 ≤ length ids → length outs2 ≤ length ids →
  ∃ conts1 conts2 : list string,
    call1 original_prompt w
      = (mkWorld (heap w1) (stdout w) (Datatypes.S (calls w)), Ok conts1) ∧
    call2 original_prompt w
      = (mkWorld (heap w1) (stdout w) (Datatypes.S (calls w)), Ok conts2) ∧
    length conts1 = length outs1 ∧ length conts2 = length outs2 ∧
    ∀ i row,
      ids !! i = Some row →
      (∀ out, outs1 !! i = Some out →
         conts1 !! i = Some (str_from (String.length (decode E row))
                                      (decode E out))) ∧
      (∀ out, outs2 !! i = Some out →
         conts2 !! i = Some (str_from (String.length (decode E row))
                                      (decode E out))).
Proof.
  intros Htok Hg1 Hg2 Hl1 Hl2.
  exists (zip_with (continuation E) ids outs1),
         (zip_with (continuation E) ids outs2).
  unfold LLM_call, BatchLLM_call.
  rewrite (generation_driver_unfold E _ _ LLM_prints),
    (generation_driver_unfold E _ _ BatchLLM_prints).
  rewrite Htok, Hg1, Hg2, !trim_outputs_Ok by done.
  rewrite !length_zip_with.
  split; [done|]. split; [done|]. split; [lia|]. split; [lia|].
  intros i row Hrow. split; intros out Hout.
  - apply lookup_zip_with_Some. by exists row, out.
  - apply lookup_zip_with_Some. by exists row, out.
Qed.

(** X6: More output rows than input rows: the list comprehension of lines
    97-99 indexes [gen_start_idx] out of range, and the [IndexError]
    leaves the driver (the [try] is already over). *)
Theorem surplus_output_rows_raise (ids mask outs1 outs2 : ids2) :
  tokenize E (heap w1 !!! batch) = Ok (ids, mask) →
  generate E (calls w) ids mask max_new_tokens shared = Ok outs1 →
  generate E (calls w) ids mask max_new_tokens per_row = Ok outs2 →
  length ids < length outs1 → length ids < length outs2 →
  call1 original_prompt w
    = (mkWorld (heap w1) (stdout w) (Datatypes.S (calls w)),
       Raise (IndexError "index out of range")) ∧
  call2 original_prompt w
    = (mkWorld (heap w1) (stdout w) (Datatypes.S (calls w)),
       Raise (IndexError "index out of range")).
Proof.
  intros Htok Hg1 Hg2 Hl1 Hl2. unfold LLM_call, BatchLLM_call.
  rewrite (generation_driver_unfold E _ _ LLM_prints),
    (generation_driver_unfold E _ _ BatchLLM_prints).
  by rewrite Htok, Hg1, Hg2, !trim_outputs_surplus.
Qed.

(** X5: When every output row decodes to the decoded input row followed by
    new text, the driver returns exactly the new texts. *)
Theorem echoed_prompt_is_stripped (ids mask outs1 outs2 : ids2)
    (news1 news2 : list string) :
  tokenize E (heap w1 !!! batch) = Ok (ids, mask) →
  generate E (calls w) ids mask max_new_tokens shared = Ok outs1 →
  generate E (calls w) ids mask max_new_tokens per_row = Ok outs2 →
  length outs1 = length ids → length outs2 = length ids →
  length news1 = length ids → length news2 = length ids →
  (∀ i row out new, ids !! i = Some row → outs1 !! i = Some out →
     news1 !! i = Some new → decode E out = (decode E row ++ new)%string) →
  (∀ i row out new, ids !! i = Some row → outs2 !! i = Some out →
     news2 !! i = Some new → decode E out = (decode E row ++ new)%string) →
  (call1 original_prompt w).2 = Ok news1 ∧
  (call2 original_prompt w).2 = Ok news2.
Proof.
  intros Htok Hg1 Hg2 Hl1 Hl2 Hn1 Hn2 He1 He2.
  unfold LLM_call, BatchLLM_call.
  rewrite (generation_driver_unfold E _ _ LLM_prints),
    (generation_driver_unfold E _ _ BatchLLM_prints).
  rewrite Htok, Hg1, Hg2, !trim_outputs_Ok by lia. simpl.
  split; f_equal; apply list_eq; intros i.
  - destruct (news1 !! i) as [new|] eqn:Hnew.
    + destruct (lookup_lt_is_Some_2 ids i) as [row Hrow];
        [apply lookup_lt_Some in Hnew; lia|].
      destruct (lookup_lt_is_Some_2 outs1 i) as [out Hout];
        [apply lookup_lt_Some in Hnew; lia|].
      apply lookup_zip_with_Some. exists row, out. split; [|done].
      unfold continuation. rewrite (He1 i row out new) by done.
      symmetry. apply str_from_app.
    + apply lookup_ge_None in Hnew. apply lookup_ge_None.
      rewrite length_zip_with. lia.
  - destruct (news2 !! i) as [new|] eqn:Hnew.
    + destruct (lookup_lt_is_Some_2 ids i) as [row Hrow];
        [apply lookup_lt_Some in Hnew; lia|].
      destruct (lookup_lt_is_Some_2 outs2 i) as [out Hout];
        [apply lookup_lt_Some in Hnew; lia|].
      apply lookup_zip_with_Some. exists row, out. split; [|done].
      unfold continuation. rewrite (He2 i row out new) by done.
      symmetry. apply str_from_app.
    + apply lookup_ge_None in Hnew. apply lookup_ge_None.
      rewrite length_zip_with. lia.
Qed.

(** X7: The list object outlives the call: a second call with the same
    non-empty extra prompt on the same list appends it a second time, so
    the batch of the second call ends with the prompt twice, however
    either call ends. *)
Theorem extra_prompt_accumulates (p : string) :
  let llm := LLM_call E batch start_noise_idx end_noise_idx noise_scale
               max_new_tokens (Some p) in
  let batch_llm := BatchLLM_call E batch start_noise_idx_list
                     end_noise_idx_list noise_scale max_new_tokens (Some p) in
  p ≠ EmptyString →
  heap (llm (llm w).1).1
    = <[batch := (heap w !!! batch) ++ [p; p]]> (heap w) ∧
  heap (batch_llm (batch_llm w).1).1
    = <[batch := (heap w !!! batch) ++ [p; p]]> (heap w).
Proof.
  intros llm batch_llm Hp. unfold llm, batch_llm, LLM_call, BatchLLM_call.
  rewrite !(generation_driver_heap E _ _ LLM_prints),
    !(generation_driver_heap E _ _ BatchLLM_prints).
  rewrite !(append_truthy batch p _ Hp).
  rewrite !(generation_driver_heap E _ _ LLM_prints),
    !(generation_driver_heap E _ _ BatchLLM_prints).
  rewrite !(append_truthy batch p _ Hp).
  rewrite !lookup_total_insert_eq, !insert_insert_eq, <- !app_assoc. done.
Qed.

End GenerationPaths.

(** ** The batch forward driver *)

Section BatchForward.

Context {F S : Type}.
Variable E : engine F S.

Variables (batch : loc) (w : world)
          (start_noise_idx_list end_noise_idx_list : list nat)
          (noise_scale : S) (original_prompt : option string).

Local Abbreviation per_row :=
  (NoiseScaleList start_noise_idx_list end_noise_idx_list noise_scale).
Local Abbreviation w1 := (append_original_prompt batch original_prompt w).1.
Local Abbreviation call :=
  (BatchLLMForward_call E batch start_noise_idx_list end_noise_idx_list
     noise_scale original_prompt w).

Lemma BatchLLMForward_call_unfold :
  call =
  match tokenize E (heap w1 !!! batch) with
  | Raise e => (mkWorld (heap w1) (stdout w) (calls w), Raise e)
  | Ok (ids, mask) =>
      match forward E (calls w) ids mask per_row with
      | Ok logits =>
          (mkWorld (heap w1) (stdout w) (Datatypes.S (calls w)),
           Ok (Tensor logits))
      | Raise e =>
          if is_runtime_error e
          then (mkWorld (heap w1)
                  (stdout w ++ ["cannot forward; error raised :  "
                                ++ str_of e]%string)
                  (Datatypes.S (calls w)), Ok EmptyList)
          else (mkWorld (heap w1) (stdout w) (Datatypes.S (calls w)),
                Raise e)
      end
  end.
Proof.
  unfold BatchLLMForward_call. unfold mbind at 1. unfold M_bind at 1.
  rewrite append_original_prompt_world. simpl.
  unfold mbind, M_bind, read_list, lift, try_except_RuntimeError,
    engine_call, mret, M_ret. simpl.
  destruct (tokenize E _) as [[ids mask]|e]; [|done]. simpl.
  destruct (forward E _ _ _ _) as [logits|e]; simpl; [done|].
  by destruct (is_runtime_error e).
Qed.

(** X1: [BatchLLMForward.__call__] makes one forward call on the tokenized
    batch with the per-row noise windows.  Its logits are returned as
    they are; a [RuntimeError] is printed and turned into the empty list;
    any other exception leaves the driver.  In all three cases the extra
    prompt stays in the caller's list. *)
Theorem batch_forward_outcomes (ids mask : ids2) :
  tokenize E (heap w1 !!! batch) = Ok (ids, mask) →
  heap call.1 = heap w1 ∧
  calls call.1 = Datatypes.S (calls w) ∧
  (∀ logits, forward E (calls w) ids mask per_row = Ok logits →
     call.2 = Ok (Tensor logits) ∧ stdout call.1 = stdout w) ∧
  (∀ msg, forward E (calls w) ids mask per_row = Raise (RuntimeError msg) →
     call.2 = Ok EmptyList ∧
     stdout call.1
       = stdout w ++ ["cannot forward; error raised :  " ++ msg]%string) ∧
  (∀ e, is_runtime_error e = false →
     forward E (calls w) ids mask per_row = Raise e →
     call.2 = Raise e ∧ stdout call.1 = stdout w).
Proof.
  intros Htok. rewrite BatchLLMForward_call_unfold, Htok.
  destruct (forward E _ _ _ _) as [logits|e] eqn:Hf.
  - repeat split; try done; intros; simplify_eq; done.
  - destruct (is_runtime_error e) eqn:He.
    + destruct e; try done. repeat split; try done; intros; simplify_eq; done.
    + repeat split; try done; intros; simplify_eq; try done.
Qed.

End BatchForward.

(** ** Replicated forward drivers: chunks *)

Section ChunkShape.

Context {A : Type}.

(** The chunks are consecutive and disjoint: joined in order, the first
    [q] chunks are the first [q * forward_batch_size] rows, whatever the
    number of rows. *)
Lemma chunks_join_to_prefix (b q : nat) (rows : list A) :
  concat (map (chunk_rows b rows) (seq 0 q)) = take (q * b) rows.
Proof.
  induction q as [|q IH]; [done|].
  rewrite seq_S, map_app, concat_app, IH. simpl. rewrite app_nil_r.
  unfold chunk_rows, slice.
  replace ((q + 1) * b - q * b) with b by lia.
  rewrite take_take_drop. f_equal. lia.
Qed.

Lemma repeat_rows_singleton (n : nat) (row : A) :
  repeat_rows n [row] = replicate n row.
Proof.
  unfold repeat_rows. induction n as [|n IH]; [done|]. simpl. by rewrite IH.
Qed.

End ChunkShape.

Section ChunkPartition.

Context {A : Type}.

Variables (rows : list A) (num_copies forward_batch_size : nat).

(** X12: The chunks cut the replicas, whatever rows they are, into
    consecutive, disjoint blocks.  Row [k] of chunk [i] is row
    [i * forward_batch_size + k] of the replicas; a chunk holds
    [forward_batch_size] rows, or what is left of the replicas from its
    start when that is less.  So the rows that reach the model over the
    [num_copies // forward_batch_size] chunks are the first
    [(num_copies // forward_batch_size) * forward_batch_size] replicas in
    their order, each once; with [num_copies] replicas, the
    [num_copies % forward_batch_size] replicas after them reach no
    forward call. *)
Theorem chunks_partition_replicas :
  let q := num_copies / forward_batch_size in
  (∀ i k, k < forward_batch_size →
     chunk_rows forward_batch_size rows i !! k
       = rows !! (i * forward_batch_size + k)) ∧
  (∀ i, length (chunk_rows forward_batch_size rows i)
          = forward_batch_size `min`
              (length rows - i * forward_batch_size)) ∧
  concat (map (chunk_rows forward_batch_size rows) (seq 0 q))
    = take (q * forward_batch_size) rows ∧
  (length rows = num_copies →
   length (drop (q * forward_batch_size) rows)
     = num_copies `mod` forward_batch_size).
Proof.
  intros q. split; [|split; [|split]].
  - intros i k Hk. unfold chunk_rows, slice.
    replace ((i + 1) * forward_batch_size - i * forward_batch_size)
      with forward_batch_size by lia.
    rewrite lookup_take_lt by done. by rewrite lookup_drop.
  - intros i. unfold chunk_rows, slice. rewrite length_take, length_drop.
    f_equal. lia.
  - apply chunks_join_to_prefix.
  - intros Hlen. rewrite length_drop, Hlen. unfold q.
    pose proof (Nat.div_mod_eq num_copies forward_batch_size). lia.
Qed.

End ChunkPartition.

Section ChunkClaims.

Variables (row : list nat) (num_copies forward_batch_size : nat).

Local Abbreviation input_ids := (repeat_rows num_copies [row]).

(** X13: For a prompt of one row, every chunk below the chunk count is
    [forward_batch_size] copies of that row: all forward passes of a call
    see the same input. *)
Theorem chunk_is_copies_of_prompt (i : nat) :
  i < num_copies / forward_batch_size →
  chunk_rows forward_batch_size input_ids i
    = replicate forward_batch_size row.
Proof.
  intros Hi. rewrite repeat_rows_singleton.
  unfold chunk_rows, slice. rewrite drop_replicate, take_replicate.
  f_equal.
  pose proof (div_mul_le num_copies forward_batch_size). nia.
Qed.

End ChunkClaims.

(** ** Answer-choice projector: when it fails *)

Section MapMFailure.

Context {A B : Type}.

Lemma mapM_res_Raise (f : A → res B) (l : list A) (e : exn) :
  mapM f l = Raise e → ∃ x, x ∈ l ∧ f x = Raise e.
Proof.
  induction l as [|x l IH]; [done|]. rewrite mapM_res_cons.
  destruct (f x) as [y|e'] eqn:Hx; simpl.
  - destruct (mapM f l) as [k|e'] eqn:Hl; simpl; [done|].
    intros [= ->]. destruct (IH eq_refl) as (x' & Hin & Hx').
    exists x'. split; [by right | done].
  - intros [= ->]. exists x. split; [by left | done].
Qed.

(** [mapM] stops at the first element that fails. *)
Lemma mapM_res_first_Raise (f : A → res B) (pre rest : list A) (x : A)
    (e : exn) :
  Forall (λ p, ∃ y, f p = Ok y) pre → f x = Raise e →
  mapM f (pre ++ x :: rest) = Raise e.
Proof.
  intros Hpre Hx. induction Hpre as [|p pre [y Hy] _ IH].
  - simpl app. rewrite mapM_res_cons. by rewrite Hx.
  - simpl app. rewrite mapM_res_cons. rewrite Hy. simpl. by rewrite IH.
Qed.

End MapMFailure.

Section ProjectorPaths.

Context {F S : Type}.
Variable E : engine F S.

Variables (logits : list (list (list F))) (answer_token_ids : list Z).

Lemma getitem_int_Raise {A} (fin : list A) (t : Z) (e : exn) :
  getitem_int fin t = Raise e →
  (∃ msg, e = IndexError msg) ∨
  (e = RuntimeError "Overflow when unpacking long" ∧ fits_int64 t = false).
Proof.
  unfold getitem_int, getitem. destruct (fits_int64 t).
  - destruct (wrap_index (length fin) t) as [n|].
    + destruct (fin !! n); [done|]. intros [= <-]. left. by eexists.
    + intros [= <-]. left. by eexists.
  - intros [= <-]. by right.
Qed.

Lemma getitem_int_Ok {A} (fin : list A) (t : Z) (v : A) :
  getitem_int fin t = Ok v → covers (length fin) t = true.
Proof.
  unfold getitem_int, covers. destruct (fits_int64 t); [|done].
  destruct (wrap_index (length fin) t) as [n|]; [|done].
  intros _. apply andb_true_iff. split; [done|].
  apply bool_decide_eq_true. by eexists.
Qed.

Lemma last_position_at_Raise (i : nat) (e : exn) :
  last_position_at logits i answer_token_ids = Raise e →
  projection_error answer_token_ids e.
Proof.
  intros H. apply mapM_res_Raise in H as (t & Hin & Ht).
  unfold getitem, getlast in Ht.
  destruct (logits !! i) as [sq|]; simpl in Ht;
    [|left; by inversion Ht; eexists].
  destruct (last sq) as [fin|]; simpl in Ht;
    [|left; by inversion Ht; eexists].
  destruct (getitem_int fin t) as [v|e'] eqn:Hg; simpl in Ht; [done|].
  injection Ht as ->.
  destruct (getitem_int_Raise fin t e Hg) as [Hi|[-> Hfit]];
    [by left | right; split; [done | by exists t]].
Qed.

(** A row of the comprehension that succeeds on a non-empty candidate
    list has a last position covering every candidate. *)
Lemma last_position_at_inv (i : nat) (vals : list F) :
  answer_token_ids ≠ [] →
  last_position_at logits i answer_token_ids = Ok vals →
  ∃ sq fin, logits !! i = Some sq ∧ last sq = Some fin ∧
            Forall (λ t, covers (length fin) t = true) answer_token_ids.
Proof.
  intros Hne H. apply mapM_res_Ok in H.
  assert (Hhead : ∃ t v, getitem logits i ≫= (λ sq,
                    getlast sq ≫= λ fin, getitem_int fin t) = Ok v).
  { destruct H as [|t v ts vs Hx _]; [done | by exists t, v]. }
  destruct Hhead as (t0 & v0 & Hx0). unfold getitem, getlast in Hx0.
  destruct (logits !! i) as [sq|] eqn:Hsq; [|done]. simpl in Hx0.
  destruct (last sq) as [fin|] eqn:Hfin; [|done].
  exists sq, fin. split; [done|]. split; [done|].
  clear Hne Hx0. induction H as [|t v ts vs Hx _ IH]; constructor; [|done].
  unfold getitem, getlast in Hx. rewrite Hsq in Hx. simpl in Hx.
  rewrite Hfin in Hx. simpl in Hx.
  destruct (getitem_int fin t) as [v'|] eqn:Ht; [|done].
  by eapply getitem_int_Ok.
Qed.

Lemma fill_answer_rows_Raise (rows : list nat) (acc : list (list F))
    (e : exn) :
  fill_answer_rows E rows logits answer_token_ids acc = Raise e →
  projection_error answer_token_ids e.
Proof.
  revert acc. induction rows as [|i rows IH]; intros acc; [done|].
  simpl. destruct (last_position_at _ _ _) as [vals|e'] eqn:Hr; simpl.
  - apply IH.
  - intros [= ->]. by eapply last_position_at_Raise.
Qed.

Lemma fill_answer_rows_inv (rows : list nat) (acc grid : list (list F)) :
  fill_answer_rows E rows logits answer_token_ids acc = Ok grid →
  Forall (λ i, ∃ vals, last_position_at logits i answer_token_ids = Ok vals)
         rows.
Proof.
  revert acc. induction rows as [|i rows IH]; intros acc; [constructor|].
  simpl. destruct (last_position_at _ _ _) as [vals|e'] eqn:Hr; simpl; [|done].
  intros H. constructor; [by exists vals | by eapply IH].
Qed.

Lemma fill_answer_rows_empty (m k : nat) (filled : list (list F)) :
  answer_token_ids = [] → length filled = k →
  fill_answer_rows E (seq k m) logits answer_token_ids
    (filled ++ replicate m [])
  = Ok (filled ++ replicate m []).
Proof.
  intros ->. revert k filled. induction m as [|m IH]; intros k filled Hk.
  - done.
  - simpl. rewrite insert_app_r_alt by lia. rewrite Hk, Nat.sub_diag. simpl.
    rewrite cons_middle, app_assoc.
    rewrite (IH (Datatypes.S k)) by (rewrite length_app; simpl; lia).
    by rewrite <- app_assoc.
Qed.

Lemma get_answer_choice_logits_empty :
  answer_token_ids = [] →
  get_answer_choice_logits E logits answer_token_ids
    = Ok (replicate (length logits) []).
Proof.
  intros Hans. unfold get_answer_choice_logits.
  pose proof (fill_answer_rows_empty (length logits) 0 [] Hans eq_refl) as H.
  rewrite Hans in *. exact H.
Qed.

Lemma get_answer_choice_logits_Ok_inv (grid : list (list F)) :
  get_answer_choice_logits E logits answer_token_ids = Ok grid →
  answer_token_ids ≠ [] →
  projectable logits answer_token_ids = true.
Proof.
  intros Hgrid Hne. unfold get_answer_choice_logits in Hgrid.
  apply fill_answer_rows_inv in Hgrid. rewrite Forall_forall in Hgrid.
  unfold projectable. apply forallb_forall. intros sq Hin.
  apply list_elem_of_In, list_elem_of_lookup in Hin as [i Hi].
  destruct (Hgrid i) as [vals Hvals].
  { apply elem_of_seq. apply lookup_lt_Some in Hi. lia. }
  apply last_position_at_inv in Hvals as (sq' & fin & Hsq & Hfin & Hall);
    [|done].
  rewrite Hi in Hsq. injection Hsq as <-. rewrite Hfin.
  apply forallb_forall. intros t Ht.
  rewrite Forall_forall in Hall. by apply Hall, list_elem_of_In.
Qed.

Lemma get_answer_choice_logits_Raise (e : exn) :
  get_answer_choice_logits E logits answer_token_ids = Raise e →
  projection_error answer_token_ids e.
Proof. unfold get_answer_choice_logits. apply fill_answer_rows_Raise. Qed.

(** With candidate ids that all fit a signed 64-bit integer, the only
    failure of the projection is an [IndexError]. *)
Lemma get_answer_choice_logits_IndexError (e : exn) :
  forallb fits_int64 answer_token_ids = true →
  get_answer_choice_logits E logits answer_token_ids = Raise e →
  ∃ msg, e = IndexError msg.
Proof.
  intros Hfit H.
  destruct (get_answer_choice_logits_Raise e H) as [Hi|[_ (t & Hin & Ht)]];
    [done|].
  rewrite forallb_forall in Hfit.
  apply list_elem_of_In, Hfit in Hin. congruence.
Qed.

(** The first candidate id that does not fit a signed 64-bit integer,
    after ids that the last position covers, ends the comprehension of
    row 0 with the [RuntimeError] of the integer conversion. *)
Lemma last_position_at_overflow (sq : list (list F)) (fin : list F)
    (pre rest : list Z) (t : Z) :
  logits !! 0 = Some sq → last sq = Some fin →
  answer_token_ids = pre ++ t :: rest →
  forallb (covers (length fin)) pre = true →
  fits_int64 t = false →
  last_position_at logits 0 answer_token_ids
  = Raise (RuntimeError "Overflow when unpacking long").
Proof.
  intros Hsq Hfin -> Hpre Ht. unfold last_position_at.
  apply mapM_res_first_Raise.
  - apply Forall_forall. intros p Hp.
    rewrite forallb_forall in Hpre. apply list_elem_of_In, Hpre in Hp.
    destruct (getitem_int_covered fin p Hp) as (n & v & _ & _ & Hg).
    exists v. rewrite (getitem_Ok _ _ _ Hsq). simpl. unfold getlast.
    rewrite Hfin. simpl. by rewrite Hg.
  - rewrite (getitem_Ok _ _ _ Hsq). simpl. unfold getlast. rewrite Hfin.
    simpl. unfold getitem_int. by rewrite Ht.
Qed.

Lemma get_answer_choice_logits_overflow (sq : list (list F))
    (fin : list F) (pre rest : list Z) (t : Z) :
  logits !! 0 = Some sq → last sq = Some fin →
  answer_token_ids = pre ++ t :: rest →
  forallb (covers (length fin)) pre = true →
  fits_int64 t = false →
  get_answer_choice_logits E logits answer_token_ids
  = Raise (RuntimeError "Overflow when unpacking long").
Proof.
  intros Hsq Hfin Hids Hpre Ht. unfold get_answer_choice_logits.
  destruct logits as [|sq0 lgs] eqn:Hl; [done|]. rewrite <- Hl.
  assert (Hlen : length logits = Datatypes.S (length lgs))
    by (by rewrite Hl).
  rewrite Hlen. simpl seq. simpl fill_answer_rows.
  rewrite <- Hl in Hsq.
  by rewrite (last_position_at_overflow sq fin pre rest t Hsq Hfin Hids
                Hpre Ht).
Qed.

(** X15: [_get_answer_choice_logits] succeeds exactly when there is no
    candidate, or when every sequence has a last position that covers
    every candidate id, counting a negative id from the end of the
    vocabulary.  With no candidate the grid has one empty row per
    sequence, whatever the sequences are.  When it fails, it fails with
    an [IndexError], or with the [RuntimeError] of the integer conversion,
    and then some candidate id does not fit a signed 64-bit integer; so
    with ids that all fit, every failure is an [IndexError]. *)
Theorem answer_choice_logits_defined :
  ((∃ grid, get_answer_choice_logits E logits answer_token_ids = Ok grid) ↔
   (answer_token_ids = [] ∨ projectable logits answer_token_ids = true)) ∧
  (answer_token_ids = [] →
   get_answer_choice_logits E logits answer_token_ids
     = Ok (replicate (length logits) [])) ∧
  (∀ e, get_answer_choice_logits E logits answer_token_ids = Raise e →
        (∃ msg, e = IndexError msg) ∨
        (e = RuntimeError "Overflow when unpacking long" ∧
         ∃ t, t ∈ answer_token_ids ∧ fits_int64 t = false)) ∧
  (forallb fits_int64 answer_token_ids = true →
   ∀ e, get_answer_choice_logits E logits answer_token_ids = Raise e →
        ∃ msg, e = IndexError msg).
Proof.
  split; [|split; [|split]].
  - split.
    + intros [grid Hgrid].
      destruct (decide (answer_token_ids = [])) as [Hans|Hne]; [by left|].
      right. by eapply get_answer_choice_logits_Ok_inv.
    + intros [Hans|Hp].
      * eexists. by apply get_answer_choice_logits_empty.
      * eexists. by apply get_answer_choice_logits_Ok.
  - apply get_answer_choice_logits_empty.
  - apply get_answer_choice_logits_Raise.
  - intros Hfit e. by apply get_answer_choice_logits_IndexError.
Qed.

End ProjectorPaths.

(** ** Replicated forward drivers: every path *)

Section LoopPaths.

Context {F S T : Type}.
Variable E : engine F S.

Variables (post : list (list (list F)) → res T)
          (input_ids attention_masks : ids2) (nz : noise S)
          (forward_batch_size : nat).

Local Abbreviation guarded :=
  (guarded_chunks E post input_ids attention_masks nz forward_batch_size).
Local Abbreviation bare :=
  (bare_chunks E post input_ids attention_masks nz forward_batch_size).
Local Abbreviation step :=
  (forward_chunk E post input_ids attention_masks nz forward_batch_size).

Lemma guarded_cons (i : nat) (rest : list nat) (acc : list T) (w : world) :
  guarded (i :: rest) acc w =
  match step i w with
  | (w', Ok t) => guarded rest (acc ++ [t]) w'
  | (w', Raise e) =>
      if is_runtime_error e
      then (mkWorld (heap w')
              (stdout w' ++ ["cannot forward; error raised :  "
                             ++ str_of e]%string)
              (calls w'), Ok (inl EmptyList))
      else (w', Raise e)
  end.
Proof.
  simpl guarded_chunks. unfold mbind at 1. unfold M_bind at 1.
  unfold try_except_RuntimeError. unfold mbind at 1. unfold M_bind at 1.
  destruct (step i w) as [w' [t|e]]; [done|].
  by destruct (is_runtime_error e).
Qed.

Lemma bare_cons (i : nat) (rest : list nat) (acc : list T) (w : world) :
  bare (i :: rest) acc w =
  match step i w with
  | (w', Ok t) => bare rest (acc ++ [t]) w'
  | (w', Raise e) => (w', Raise e)
  end.
Proof.
  simpl bare_chunks. unfold mbind at 1. unfold M_bind at 1.
  by destruct (step i w) as [w' [t|e]].
Qed.

Lemma step_world (i : nat) (w : world) : (step i w).1 = after_calls w 1.
Proof. by rewrite forward_chunk_unfold. Qed.

(** The loop with the handler and the loop without it run the same
    forward calls; they differ only where a [RuntimeError] comes out of a
    chunk. *)
Lemma bare_guarded (chunks : list nat) (acc : list T) (w w' : world)
    (r : res (list T)) :
  bare chunks acc w = (w', r) →
  match r with
  | Ok out => guarded chunks acc w = (w', Ok (inr out))
  | Raise e =>
      is_runtime_error e = false → guarded chunks acc w = (w', Raise e)
  end.
Proof.
  revert acc w. induction chunks as [|i chunks IH]; intros acc w.
  - simpl. intros [= <- <-]. done.
  - rewrite bare_cons, guarded_cons.
    destruct (step i w) as [w1 [t|e]].
    + apply IH.
    + intros [= <- <-]. by intros ->.
Qed.

(** What the loop with the handler can do to the world. *)
Lemma guarded_footprint (chunks : list nat) (acc : list T) (w : world) :
  let w' := (guarded chunks acc w).1 in
  let r := (guarded chunks acc w).2 in
  heap w' = heap w ∧
  calls w ≤ calls w' ≤ calls w + length chunks ∧
  ((stdout w' = stdout w ∧ r ≠ Ok (inl EmptyList)) ∨
   (∃ line, stdout w' = stdout w ++ [line]) ∧ r = Ok (inl EmptyList)).
Proof.
  revert acc w. induction chunks as [|i chunks IH]; intros acc w.
  - simpl. repeat split; try lia. by left.
  - rewrite guarded_cons. pose proof (step_world i w) as Hw.
    destruct (step i w) as [w1 [t|e]]; simpl in Hw; subst w1.
    + destruct (IH (acc ++ [t]) (after_calls w 1)) as (Hh & Hc & Hs).
      simpl in *. repeat split; try done; lia.
    + destruct (is_runtime_error e); simpl.
      * repeat split; try lia. right. split; [by eexists | done].
      * repeat split; try lia. by left.
Qed.

Lemma bare_footprint (chunks : list nat) (acc : list T) (w : world) :
  let w' := (bare chunks acc w).1 in
  heap w' = heap w ∧ stdout w' = stdout w ∧
  calls w ≤ calls w' ≤ calls w + length chunks.
Proof.
  revert acc w. induction chunks as [|i chunks IH]; intros acc w.
  - simpl. repeat split; lia.
  - rewrite bare_cons. pose proof (step_world i w) as Hw.
    destruct (step i w) as [w1 [t|e]]; simpl in Hw; subst w1.
    + destruct (IH (acc ++ [t]) (after_calls w 1)) as (Hh & Hs & Hc).
      simpl in *. repeat split; try done; lia.
    + simpl. repeat split; lia.
Qed.

End LoopPaths.

Section DriverPaths.

Context {F S : Type}.
Variable E : engine F S.

Variables (tokenized_input : ids2 * ids2)
          (start_noise_idx end_noise_idx : nat)
          (answer_token_ids : list Z)
          (num_copies : nat) (noise_level : S) (forward_batch_size : nat)
          (w : world).

Local Abbreviation input_ids := (repeat_rows num_copies tokenized_input.1).
Local Abbreviation attention_masks :=
  (repeat_rows num_copies tokenized_input.2).
Local Abbreviation nz :=
  (NoiseLevel start_noise_idx end_noise_idx noise_level).
Local Abbreviation project :=
  (λ lg, get_answer_choice_logits E lg answer_token_ids).
Local Abbreviation full :=
  (LLMForward_call E tokenized_input start_noise_idx end_noise_idx
     num_copies noise_level forward_batch_size w).
Local Abbreviation multi :=
  (LLMForwardMultiprocessing_call E tokenized_input start_noise_idx
     end_noise_idx answer_token_ids num_copies noise_level
     forward_batch_size w).
Local Abbreviation light :=
  (LLMForwardLight_call E tokenized_input start_noise_idx end_noise_idx
     answer_token_ids num_copies noise_level forward_batch_size w).

(** The end of a driver: [torch.cat] on what the loop gathered. *)
Local Abbreviation finish :=
  (λ (T : Type) (wr : world * res (returned (list T) + list (list T))),
     match wr with
     | (w', Ok (inl early)) => (w', Ok early)
     | (w', Ok (inr outs)) =>
         (w', match cat outs with Ok t => Ok (Tensor t) | Raise e => Raise e end)
     | (w', Raise e) => (w', Raise e)
     end).

Lemma finish_footprint (T : Type)
    (wr : world * res (returned (list T) + list (list T))) (n : nat) :
  heap wr.1 = heap w ∧
  calls w ≤ calls wr.1 ≤ calls w + n ∧
  ((stdout wr.1 = stdout w ∧ wr.2 ≠ Ok (inl EmptyList)) ∨
   (∃ line, stdout wr.1 = stdout w ++ [line]) ∧ wr.2 = Ok (inl EmptyList)) →
  heap (finish T wr).1 = heap w ∧
  calls w ≤ calls (finish T wr).1 ≤ calls w + n ∧
  ((stdout (finish T wr).1 = stdout w ∧ (finish T wr).2 ≠ Ok EmptyList) ∨
   (∃ line, stdout (finish T wr).1 = stdout w ++ [line]) ∧
   (finish T wr).2 = Ok EmptyList).
Proof.
  destruct wr as [w' [[early|outs]|e]]; simpl;
    intros (Hh & Hc & [[Hs Hne]|[Hs He]]);
    (split; [done|]); (split; [done|]).
  - left. split; [done|]. intros [= ->]. by apply Hne.
  - right. split; [done|]. by injection He as ->.
  - left. split; [done|]. by destruct (cat outs).
  - done.
  - left. done.
  - done.
Qed.

Lemma multi_unfold :
  multi =
  match chunk_range num_copies forward_batch_size with
  | Raise e => (w, Raise e)
  | Ok chunks =>
      finish _ (guarded_chunks E project input_ids attention_masks nz
                  forward_batch_size chunks [] w)
  end.
Proof.
  unfold LLMForwardMultiprocessing_call.
  unfold mbind at 1. unfold M_bind at 1. unfold lift at 1.
  destruct (chunk_range _ _) as [chunks|e]; [|done].
  unfold mbind at 1. unfold M_bind at 1.
  destruct (guarded_chunks _ _ _ _ _ _ _ _ _) as [w' [[early|outs]|e]];
    try done.
  unfold mbind, M_bind, lift, mret, M_ret. by destruct (cat outs).
Qed.

Lemma full_unfold :
  0 < num_copies →
  full =
  match chunk_range num_copies forward_batch_size with
  | Raise e => (w, Raise e)
  | Ok chunks =>
      finish _ (guarded_chunks E Ok input_ids attention_masks nz
                  forward_batch_size chunks [] w)
  end.
Proof.
  intros Hn. unfold LLMForward_call.
  assert (Hrep : ∀ t : ids2, cat (replicate num_copies t)
                             = Ok (repeat_rows num_copies t))
    by (intros t; apply cat_Ok; rewrite length_replicate; lia).
  unfold mbind at 1. unfold M_bind at 1. unfold lift at 1. rewrite Hrep.
  unfold mbind at 1. unfold M_bind at 1. unfold lift at 1. rewrite Hrep.
  unfold mbind at 1. unfold M_bind at 1. unfold lift at 1.
  destruct (chunk_range _ _) as [chunks|e]; [|done].
  unfold mbind at 1. unfold M_bind at 1.
  destruct (guarded_chunks _ _ _ _ _ _ _ _ _) as [w' [[early|outs]|e]];
    try done.
  unfold mbind, M_bind, lift, mret, M_ret. by destruct (cat outs).
Qed.

Lemma light_unfold :
  light =
  match chunk_range num_copies forward_batch_size with
  | Raise e => (w, Raise e)
  | Ok chunks =>
      match bare_chunks E project input_ids attention_masks nz
              forward_batch_size chunks [] w with
      | (w', Ok outs) =>
          (w', match cat outs with Ok t => Ok (Tensor t) | Raise e => Raise e end)
      | (w', Raise e) => (w', Raise e)
      end
  end.
Proof.
  unfold LLMForwardLight_call.
  unfold mbind at 1. unfold M_bind at 1. unfold lift at 1.
  destruct (chunk_range _ _) as [chunks|e]; [|done].
  unfold mbind at 1. unfold M_bind at 1.
  destruct (bare_chunks _ _ _ _ _ _ _ _ _) as [w' [outs|e]]; [|done].
  unfold mbind, M_bind, lift, mret, M_ret. by destruct (cat outs).
Qed.

Lemma chunk_range_length (chunks : list nat) :
  chunk_range num_copies forward_batch_size = Ok chunks →
  length chunks = num_copies / forward_batch_size.
Proof.
  unfold chunk_range, floordiv. destruct forward_batch_size; [done|].
  simpl. intros [=<-]. by rewrite length_seq.
Qed.

(** X10: A sub-batch size of 0: the chunk count divides by zero.  The
    [ZeroDivisionError] is raised in the loop header, outside the [try]:
    it leaves all three drivers, with no forward call and nothing
    printed. *)
Theorem zero_batch_size_raises :
  forward_batch_size = 0 → 0 < num_copies →
  LLMForward_call E tokenized_input start_noise_idx end_noise_idx
      num_copies noise_level forward_batch_size w
    = (w, Raise ZeroDivisionError) ∧
  LLMForwardMultiprocessing_call E tokenized_input start_noise_idx
      end_noise_idx answer_token_ids num_copies noise_level
      forward_batch_size w
    = (w, Raise ZeroDivisionError) ∧
  LLMForwardLight_call E tokenized_input start_noise_idx end_noise_idx
      answer_token_ids num_copies noise_level forward_batch_size w
    = (w, Raise ZeroDivisionError).
Proof.
  intros Hb Hn. rewrite full_unfold by done.
  rewrite multi_unfold, light_unfold. by rewrite Hb.
Qed.

(** X11: On every path, whatever the model does: the drivers never touch the
    prompt lists, make at most [num_copies // forward_batch_size] forward
    calls, and the two drivers with a handler print at most one line,
    exactly when they return the empty list; the light driver prints
    nothing. *)
Theorem replicated_driver_footprint :
  let full := LLMForward_call E tokenized_input start_noise_idx
                end_noise_idx num_copies noise_level forward_batch_size w in
  let multi := LLMForwardMultiprocessing_call E tokenized_input
                 start_noise_idx end_noise_idx answer_token_ids num_copies
                 noise_level forward_batch_size w in
  let light := LLMForwardLight_call E tokenized_input start_noise_idx
                 end_noise_idx answer_token_ids num_copies noise_level
                 forward_batch_size w in
  (heap full.1 = heap w ∧
   calls w ≤ calls full.1 ≤ calls w + num_copies / forward_batch_size ∧
   ((stdout full.1 = stdout w ∧ full.2 ≠ Ok EmptyList) ∨
    (∃ line, stdout full.1 = stdout w ++ [line]) ∧ full.2 = Ok EmptyList)) ∧
  (heap multi.1 = heap w ∧
   calls w ≤ calls multi.1 ≤ calls w + num_copies / forward_batch_size ∧
   ((stdout multi.1 = stdout w ∧ multi.2 ≠ Ok EmptyList) ∨
    (∃ line, stdout multi.1 = stdout w ++ [line]) ∧ multi.2 = Ok EmptyList)) ∧
  (heap light.1 = heap w ∧ stdout light.1 = stdout w ∧
   calls w ≤ calls light.1 ≤ calls w + num_copies / forward_batch_size).
Proof.
  cbv zeta. split; [|split].
  - destruct num_copies as [|n'] eqn:Hn.
    { unfold LLMForward_call. simpl. repeat split; try lia. by left. }
    rewrite <- Hn. rewrite full_unfold by lia.
    destruct (chunk_range _ _) as [chunks|e] eqn:Hr.
    + rewrite <- (chunk_range_length _ Hr).
      apply finish_footprint, guarded_footprint.
    + simpl. repeat split; try lia. by left.
  - rewrite multi_unfold.
    destruct (chunk_range _ _) as [chunks|e] eqn:Hr.
    + rewrite <- (chunk_range_length _ Hr).
      apply finish_footprint, guarded_footprint.
    + simpl. repeat split; try lia. by left.
  - rewrite light_unfold.
    destruct (chunk_range _ _) as [chunks|e] eqn:Hr.
    + pose proof (bare_footprint E project input_ids attention_masks nz
                    forward_batch_size chunks [] w) as H.
      rewrite (chunk_range_length _ Hr) in H.
      destruct (bare_chunks _ _ _ _ _ _ _ _ _) as [w' [outs|e]];
        simpl in *; destruct H as (Hh & Hs & Hc); repeat split; try done; lia.
    + simpl. repeat split; lia.
Qed.

(** X14: The light driver and the multiprocessing driver are the same
    computation up to the handler: whenever the light driver ends in
    anything but a [RuntimeError], the multiprocessing driver ends in the
    same result and the same world. *)
Theorem light_and_multiprocessing_agree (w' : world)
    (r : res (returned (list (list F)))) :
  light = (w', r) →
  (∀ msg, r ≠ Raise (RuntimeError msg)) →
  multi = (w', r).
Proof.
  rewrite light_unfold, multi_unfold.
  destruct (chunk_range _ _) as [chunks|e]; [|done].
  pose proof (bare_guarded E project input_ids attention_masks nz
                forward_batch_size chunks [] w) as H.
  destruct (bare_chunks _ _ _ _ _ _ _ _ _) as [w1 [outs|e]].
  - specialize (H w1 (Ok outs) eq_refl). simpl in H. rewrite H.
    by intros [= <- <-].
  - specialize (H w1 (Raise e) eq_refl). simpl in H.
    intros [= <- <-] Hne.
    rewrite H; [done|]. destruct e; try done. by destruct (Hne msg).
Qed.

(** X9: The handler catches [RuntimeError] and nothing else: any other
    exception of the forward pass on chunk [k] leaves all three drivers,
    after [k + 1] forward calls, with nothing printed. *)
Theorem forward_other_error_propagates
    (k : nat) (e : exn) (lgs : list (list (list (list F)))) :
  k < num_copies / forward_batch_size →
  is_runtime_error e = false →
  chunk_logits E input_ids attention_masks nz forward_batch_size
    (calls w) (seq 0 k) = Ok lgs →
  forallb (λ lg, projectable lg answer_token_ids) lgs = true →
  forward E (calls w + k)
    (chunk_rows forward_batch_size input_ids k)
    (chunk_rows forward_batch_size attention_masks k) nz = Raise e →
  full = (after_calls w (k + 1), Raise e) ∧
  multi = (after_calls w (k + 1), Raise e) ∧
  light = (after_calls w (k + 1), Raise e).
Proof.
  intros Hk He Hl Hproj Hf.
  assert (Hb : 0 < forward_batch_size)
    by (destruct forward_batch_size; [simpl in Hk; lia | lia]).
  assert (Hn : 0 < num_copies).
  { destruct num_copies; [|lia]. rewrite Nat.Div0.div_0_l in Hk. lia. }
  destruct (mapM_project E answer_token_ids lgs Hproj) as (parts & Hm & _).
  assert (Hsplit : seq 0 (num_copies / forward_batch_size)
                   = seq 0 k ++ k :: seq (Datatypes.S k)
                       (num_copies / forward_batch_size - k - 1)).
  { replace (num_copies / forward_batch_size)
      with (k + Datatypes.S (num_copies / forward_batch_size - k - 1))
      at 1 by lia.
    by rewrite seq_app. }
  rewrite full_unfold by done. rewrite multi_unfold, light_unfold.
  rewrite chunk_range_Ok by done. rewrite Hsplit.
  rewrite (guarded_chunks_seq E Ok _ _ _ _ k 0 _ [] w (calls w) lgs lgs);
    [| lia | done | apply mapM_Ok_id].
  rewrite (guarded_chunks_seq E project _ _ _ _ k 0 _ [] w (calls w)
             lgs parts); [| lia | done | done].
  rewrite (bare_chunks_seq E project _ _ _ _ k 0 _ [] w (calls w)
             lgs parts); [| lia | done | done].
  rewrite !guarded_cons, bare_cons, !forward_chunk_unfold. simpl.
  rewrite Hf, He. simpl. by rewrite after_calls_add.
Qed.

(** X16: A candidate id that the last position does not cover, among
    candidate ids that all fit a signed 64-bit integer: the [IndexError]
    of the projection is raised inside the [try] of the multiprocessing
    driver, but the handler does not catch it.  Both projecting drivers
    end with that exception after the first forward call. *)
Theorem uncovered_candidate_raises_IndexError (lg : list (list (list F))) :
  0 < num_copies / forward_batch_size →
  forward E (calls w)
    (chunk_rows forward_batch_size input_ids 0)
    (chunk_rows forward_batch_size attention_masks 0) nz = Ok lg →
  answer_token_ids ≠ [] →
  forallb fits_int64 answer_token_ids = true →
  projectable lg answer_token_ids = false →
  ∃ msg,
    multi = (after_calls w 1, Raise (IndexError msg)) ∧
    light = (after_calls w 1, Raise (IndexError msg)).
Proof.
  intros Hq Hf Hne Hfit Hp.
  assert (Hb : 0 < forward_batch_size)
    by (destruct forward_batch_size; [simpl in Hq; lia | lia]).
  destruct (get_answer_choice_logits E lg answer_token_ids) as [grid|e]
    eqn:Hg.
  { rewrite (get_answer_choice_logits_Ok_inv E _ _ grid Hg Hne) in Hp.
    done. }
  destruct (get_answer_choice_logits_IndexError E _ _ e Hfit Hg) as [msg ->].
  exists msg.
  rewrite multi_unfold, light_unfold, chunk_range_Ok by done.
  destruct (num_copies / forward_batch_size) as [|q]; [lia|].
  simpl seq. rewrite guarded_cons, bare_cons, forward_chunk_unfold.
  by rewrite Hf, Hg.
Qed.

(** X21: A candidate id that does not fit a signed 64-bit integer, after
    candidate ids that the last position covers: indexing the logits of
    the first chunk raises the [RuntimeError] of the integer conversion.
    The handler of the multiprocessing driver, written for the forward
    pass, catches it as well: the driver prints the line and returns the
    empty list after one forward call.  The light driver, without the
    handler, raises that [RuntimeError]. *)
Theorem overflowing_candidate_is_caught
    (lg : list (list (list F))) (sq : list (list F)) (fin : list F)
    (pre rest : list Z) (t : Z) :
  0 < num_copies / forward_batch_size →
  forward E (calls w)
    (chunk_rows forward_batch_size input_ids 0)
    (chunk_rows forward_batch_size attention_masks 0) nz = Ok lg →
  lg !! 0 = Some sq → last sq = Some fin →
  answer_token_ids = pre ++ t :: rest →
  forallb (covers (length fin)) pre = true →
  fits_int64 t = false →
  multi
    = (mkWorld (heap w)
         (stdout w ++
          ["cannot forward; error raised :  Overflow when unpacking long"])
         (calls w + 1),
       Ok EmptyList) ∧
  light
    = (after_calls w 1,
       Raise (RuntimeError "Overflow when unpacking long")).
Proof.
  intros Hq Hf Hsq Hfin Hids Hpre Ht.
  assert (Hb : 0 < forward_batch_size)
    by (destruct forward_batch_size; [simpl in Hq; lia | lia]).
  pose proof (get_answer_choice_logits_overflow E lg answer_token_ids
                sq fin pre rest t Hsq Hfin Hids Hpre Ht) as Hg.
  rewrite multi_unfold, light_unfold, chunk_range_Ok by done.
  destruct (num_copies / forward_batch_size) as [|q]; [lia|].
  simpl seq. rewrite guarded_cons, bare_cons, forward_chunk_unfold.
  by rewrite Hf, Hg.
Qed.

End DriverPaths.

(** ** Probability extractors: every path *)

Section ExtractorPaths.

Context {F S : Type}.
Variable E : engine F S.

Lemma batch_get_probs_eq (walk : bool) (batch : list string)
    (ids mask : ids2) (logits : list (list (list F))) (w : world) :
  tokenize E batch = Ok (ids, mask) →
  forward E (calls w) ids mask NoNoise = Ok logits →
  scorable E ids logits = true →
  batch_get_probs E walk batch w
  = (after_calls w 1,
     Ok (map (λ i, filled_row E (ids !!! i) (logits !!! i)
                     (ones_like E ids !!! i))
             (seq 0 (length ids)))).
Proof.
  intros Htok Hfw Hs.
  unfold batch_get_probs, mbind, M_bind, lift, engine_call, after_calls.
  rewrite Htok. simpl. rewrite Hfw. simpl. rewrite Nat.add_1_r.
  pose proof (select_rows_seq E ids logits Hs walk (length ids) 0 []
                eq_refl eq_refl) as H.
  simpl in H. rewrite drop_0 in H. by rewrite H.
Qed.

(** X17: The batch extractors score every sequence on its own: the grid row
    of a sequence is fixed by the tokens and the logits of that sequence.
    The same sequence with the same logits gets the same row in another
    batch, at another place, next to other sequences. *)
Theorem batch_rows_scored_independently
    (batch batch' : list string) (ids mask ids' mask' : ids2)
    (logits logits' : list (list (list F))) (w w' : world)
    (i i' : nat) (row : list nat) (lg : list (list F)) :
  tokenize E batch = Ok (ids, mask) →
  forward E (calls w) ids mask NoNoise = Ok logits →
  scorable E ids logits = true →
  tokenize E batch' = Ok (ids', mask') →
  forward E (calls w') ids' mask' NoNoise = Ok logits' →
  scorable E ids' logits' = true →
  ids !! i = Some row → logits !! i = Some lg →
  ids' !! i' = Some row → logits' !! i' = Some lg →
  ∃ sp sp' sprow,
    (LLM_get_probs E batch w).2 = Ok sp ∧
    (LLM_get_probs E batch' w').2 = Ok sp' ∧
    (BatchLLM_get_probs E batch w).2 = Ok sp ∧
    (BatchLLM_get_probs E batch' w').2 = Ok sp' ∧
    sp !! i = Some sprow ∧ sp' !! i' = Some sprow.
Proof.
  intros Htok Hfw Hs Htok' Hfw' Hs' Hrow Hlg Hrow' Hlg'.
  unfold LLM_get_probs, BatchLLM_get_probs.
  rewrite !(batch_get_probs_eq _ batch ids mask logits w Htok Hfw Hs),
    !(batch_get_probs_eq _ batch' ids' mask' logits' w' Htok' Hfw' Hs').
  do 2 eexists. exists (filled_row E row lg (map (λ _, one E) row)).
  repeat split.
  - rewrite list_lookup_fmap, lookup_seq_lt by (by eapply lookup_lt_Some).
    simpl.
    by rewrite (list_lookup_total_correct _ _ _ Hrow),
      (list_lookup_total_correct _ _ _ Hlg),
      (list_lookup_total_correct _ _ _ (ones_lookup E ids i row Hrow)).
  - rewrite list_lookup_fmap, lookup_seq_lt by (by eapply lookup_lt_Some).
    simpl.
    by rewrite (list_lookup_total_correct _ _ _ Hrow'),
      (list_lookup_total_correct _ _ _ Hlg'),
      (list_lookup_total_correct _ _ _ (ones_lookup E ids' i' row Hrow')).
Qed.

(** X18: [LLMForward.get_probs] on a batch of several rows: all rows of the
    grid are the same vector. *)
Theorem forward_extractor_rows_coincide
    (tokenized_input : ids2 * ids2) (logits : list (list (list F)))
    (w : world) :
  forward E (calls w) tokenized_input.1 tokenized_input.2 NoNoise
    = Ok logits →
  scorable E tokenized_input.1 logits = true →
  rectangular tokenized_input.1 = true →
  0 < length tokenized_input.1 →
  ∃ sp, LLMForward_get_probs E tokenized_input w
          = (after_calls w 1, Ok sp) ∧
        length sp = length tokenized_input.1 ∧
        ∀ i j r1 r2, sp !! i = Some r1 → sp !! j = Some r2 → r1 = r2.
Proof.
  intros Hfw Hs Hrect Hpos. eexists. split; [|split].
  - unfold LLMForward_get_probs, mbind, M_bind, lift, engine_call,
      after_calls.
    rewrite Hfw. simpl. rewrite Nat.add_1_r.
    pose proof (forward_rows_Ok E _ _ Hs Hpos Hrect) as H.
    unfold mbind in H. by rewrite H.
  - unfold ones_like. by rewrite !length_map.
  - assert (Hones : ∀ i r, ones_like E tokenized_input.1 !! i = Some r →
                      r = replicate (shape1 tokenized_input.1) (one E)).
    { intros i r Hr. unfold ones_like in Hr.
      rewrite list_lookup_fmap in Hr.
      destruct (tokenized_input.1 !! i) as [row|] eqn:Hrow; [|done].
      injection Hr as <-.
      unfold rectangular in Hrect. rewrite forallb_forall in Hrect.
      assert (Hin : In row tokenized_input.1)
        by (apply list_elem_of_In; by eapply list_elem_of_lookup_2).
      apply Hrect, bool_decide_eq_true in Hin. rewrite <- Hin.
      clear. induction row as [|x row IH]; [done|]. simpl. by rewrite IH. }
    intros i j r1 r2. rewrite !list_lookup_fmap.
    destruct (ones_like E _ !! i) as [o1|] eqn:H1; [|done].
    destruct (ones_like E _ !! j) as [o2|] eqn:H2; [|done].
    apply Hones in H1, H2. intros [= <-] [= <-]. by rewrite H1, H2.
Qed.

(** X19: The extractors have no handler: whatever the forward pass raises, a
    [RuntimeError] included, leaves [get_probs] as an exception, where
    [__call__] of the same class would have returned the empty list. *)
Theorem get_probs_has_no_handler
    (batch : list string) (ids mask : ids2)
    (tokenized_input : ids2 * ids2) (e : exn) (w : world) :
  tokenize E batch = Ok (ids, mask) →
  forward E (calls w) ids mask NoNoise = Raise e →
  forward E (calls w) tokenized_input.1 tokenized_input.2 NoNoise
    = Raise e →
  LLM_get_probs E batch w = (after_calls w 1, Raise e) ∧
  BatchLLM_get_probs E batch w = (after_calls w 1, Raise e) ∧
  LLMForward_get_probs E tokenized_input w = (after_calls w 1, Raise e).
Proof.
  intros Htok Hf Hf1.
  unfold LLM_get_probs, BatchLLM_get_probs, batch_get_probs,
    LLMForward_get_probs, mbind, M_bind, lift, engine_call, after_calls.
  rewrite Htok. simpl. rewrite Hf, Hf1, Nat.add_1_r. done.
Qed.

(** X20: A batch of zero rows: the batch extractors return the empty grid;
    [LLMForward.get_probs] indexes row 0 and raises an [IndexError]. *)
Theorem extractors_on_empty_batch
    (batch : list string) (mask mask1 : ids2)
    (logits logits1 : list (list (list F))) (w : world) :
  tokenize E batch = Ok ([], mask) →
  forward E (calls w) [] mask NoNoise = Ok logits →
  forward E (calls w) [] mask1 NoNoise = Ok logits1 →
  LLM_get_probs E batch w = (after_calls w 1, Ok []) ∧
  BatchLLM_get_probs E batch w = (after_calls w 1, Ok []) ∧
  ∃ msg, LLMForward_get_probs E ([], mask1) w
           = (after_calls w 1, Raise (IndexError msg)).
Proof.
  intros Htok Hf Hf1.
  unfold LLM_get_probs, BatchLLM_get_probs, batch_get_probs,
    LLMForward_get_probs, mbind, M_bind, lift, engine_call, after_calls.
  rewrite Htok. simpl. rewrite Hf, Hf1, Nat.add_1_r. simpl.
  split; [done|]. split; [done|].
  destruct logits1 as [|lg0 lgs]; simpl; by eexists.
Qed.

End ExtractorPaths.

(** ** The further properties at concrete inputs *)

Module MoreInstances.

Lemma tokenizer_error_propagates_witness :
  LLM_call Toy.no_tokenizer 1%positive 0 1 5 100 (Some "xyz") Toy.w0
    = (mkWorld {[ 1%positive := ["ab"; "c"; "xyz"] ]} [] 0,
       Raise (RuntimeError "tokenizer failure")).
Proof.
  edestruct (tokenizer_error_propagates Toy.no_tokenizer 1%positive Toy.w0
               0 1 [0; 0; 0] [1; 1; 1] 5 100 (Some "xyz"))
    as [H _]; [reflexivity|].
  rewrite H. reflexivity.
Defined.

Lemma generate_other_error_propagates_witness :
  (LLM_call Toy.bad_generation 1%positive 0 1 5 100 None Toy.w0).2
    = Raise Toy.value_error ∧
  stdout (LLM_call Toy.bad_generation 1%positive 0 1 5 100 None Toy.w0).1
    = [].
Proof.
  edestruct (generate_other_error_propagates Toy.bad_generation 1%positive
               Toy.w0 0 1 [0; 0] [1; 1] 5 100 None)
    with (e := Toy.value_error) as [H _]; [reflexivity | reflexivity | reflexivity | reflexivity |].
  rewrite H. split; reflexivity.
Defined.

Lemma continuations_follow_batch_order_witness :
  ∃ conts : list string,
    (LLM_call Toy.sound 1%positive 0 1 5 100 None Toy.w0).2 = Ok conts ∧
    conts !! 0 = Some "!" ∧ conts !! 1 = Some "!" ∧ length conts = 2.
Proof.
  edestruct (continuations_follow_batch_order Toy.sound 1%positive Toy.w0
               0 1 [0; 0] [1; 1] 5 100 None)
    as (c1 & c2 & H1 & _ & L1 & _ & Hrows);
    [reflexivity | reflexivity | reflexivity | vm_compute; lia | vm_compute; lia |].
  exists c1. rewrite H1. split; [reflexivity|].
  destruct (Hrows 0 _ eq_refl) as [R0 _].
  destruct (Hrows 1 _ eq_refl) as [R1 _].
  split; [exact (R0 _ eq_refl)|]. split; [exact (R1 _ eq_refl) | exact L1].
Defined.

Lemma surplus_output_rows_raise_witness :
  (LLM_call Toy.doubled_generation 1%positive 0 1 5 100 None Toy.w0).2
    = Raise (IndexError "index out of range").
Proof.
  edestruct (surplus_output_rows_raise Toy.doubled_generation 1%positive
               Toy.w0 0 1 [0; 0] [1; 1] 5 100 None)
    as [H _];
    [reflexivity | reflexivity | reflexivity | vm_compute; lia | vm_compute; lia |].
  by rewrite H.
Defined.

Lemma echoed_prompt_is_stripped_witness :
  (LLM_call Toy.sound 1%positive 0 1 5 100 None Toy.w0).2 = Ok ["!"; "!"] ∧
  (BatchLLM_call Toy.sound 1%positive [0; 0] [1; 1] 5 100 None Toy.w0).2
    = Ok ["!"; "!"].
Proof.
  eapply (echoed_prompt_is_stripped Toy.sound 1%positive Toy.w0
            0 1 [0; 0] [1; 1] 5 100 None);
    [reflexivity | reflexivity | reflexivity | reflexivity | reflexivity
    | reflexivity | reflexivity | |];
    intros [|[|i]] row out new Hrow Hout Hnew;
    vm_compute in Hrow, Hout, Hnew; simplify_eq; reflexivity.
Defined.

Lemma extra_prompt_accumulates_witness :
  heap (LLM_call Toy.sound 1%positive 0 1 5 100 (Some "xyz")
          (LLM_call Toy.sound 1%positive 0 1 5 100 (Some "xyz") Toy.w0).1).1
    !! 1%positive = Some ["ab"; "c"; "xyz"; "xyz"].
Proof.
  edestruct (extra_prompt_accumulates Toy.sound 1%positive Toy.w0
               0 1 [0; 0; 0] [1; 1; 1] 5 100 "xyz") as [H _];
    [discriminate|].
  rewrite H. reflexivity.
Defined.

Lemma batch_forward_outcomes_witness :
  (BatchLLMForward_call (Toy.small_failing 0) 1%positive [0; 0] [1; 1] 5 None
     Toy.w0).2 = Ok EmptyList ∧
  stdout (BatchLLMForward_call (Toy.small_failing 0) 1%positive [0; 0] [1; 1]
            5 None Toy.w0).1
    = ["cannot forward; error raised :  CUDA out of memory"].
Proof.
  edestruct (batch_forward_outcomes (Toy.small_failing 0) 1%positive Toy.w0
               [0; 0] [1; 1] 5 None)
    as (_ & _ & _ & Hfail & _); [reflexivity|].
  exact (Hfail "CUDA out of memory" eq_refl).
Defined.

Lemma chunks_partition_replicas_witness :
  let rows := [[1]; [2]; [3]; [4]; [5]; [6]; [7]; [8]; [9]; [10]] in
  chunk_rows 4 rows 1 !! 2 = Some [7] ∧
  concat (map (chunk_rows 4 rows) [0; 1]) = take 8 rows ∧
  drop 8 rows = [[9]; [10]] ∧
  length (drop 8 rows) = 10 `mod` 4.
Proof.
  intros rows.
  destruct (chunks_partition_replicas rows 10 4) as (Hk & _ & Hj & Hrest).
  split; [by rewrite (Hk 1 2) by lia|].
  split; [exact Hj|]. split; [reflexivity|]. by apply Hrest.
Defined.

Lemma chunk_is_copies_of_prompt_witness :
  chunk_rows 4 (repeat_rows 10 [[1; 2]]) 1 = replicate 4 [1; 2].
Proof. apply chunk_is_copies_of_prompt. simpl. lia. Defined.

Lemma zero_batch_size_raises_witness :
  LLMForward_call Toy.small Toy.one_prompt 0 1 10 7 0 Toy.w0
    = (Toy.w0, Raise ZeroDivisionError).
Proof.
  edestruct (zero_batch_size_raises Toy.small Toy.one_prompt 0 1 [5; 9; 2]%Z
               10 7 0 Toy.w0) as (H & _); [reflexivity | lia |].
  exact H.
Defined.

Lemma light_and_multiprocessing_agree_witness :
  ∃ t, LLMForwardMultiprocessing_call Toy.small Toy.one_prompt 0 1 [5; 9; 2]%Z
         10 7 4 Toy.w0
       = (after_calls Toy.w0 2, Ok (Tensor t)) ∧ length t = 8.
Proof.
  eexists. split.
  - eapply (light_and_multiprocessing_agree Toy.small Toy.one_prompt 0 1
              [5; 9; 2]%Z 10 7 4 Toy.w0); [reflexivity | discriminate].
  - reflexivity.
Defined.

Lemma forward_other_error_propagates_witness :
  LLMForward_call (Toy.small_value_error 1) Toy.one_prompt 0 1 10 7 4 Toy.w0
    = (after_calls Toy.w0 2, Raise Toy.value_error).
Proof.
  edestruct (forward_other_error_propagates (Toy.small_value_error 1)
               Toy.one_prompt 0 1 [5; 9; 2]%Z 10 7 4 Toy.w0 1 Toy.value_error)
    as (H & _);
    [vm_compute; lia | reflexivity | reflexivity | reflexivity | reflexivity |].
  exact H.
Defined.

Lemma uncovered_candidate_raises_IndexError_witness :
  ∃ msg, LLMForwardMultiprocessing_call Toy.small Toy.one_prompt 0 1 [5; 12]%Z
           10 7 4 Toy.w0
         = (after_calls Toy.w0 1, Raise (IndexError msg)).
Proof.
  edestruct (uncovered_candidate_raises_IndexError Toy.small Toy.one_prompt
               0 1 [5; 12]%Z 10 7 4 Toy.w0) as (msg & H & _);
    [vm_compute; lia | reflexivity | discriminate | reflexivity
    | reflexivity |].
  by exists msg.
Defined.

Lemma overflowing_candidate_is_caught_witness :
  LLMForwardMultiprocessing_call Toy.small Toy.one_prompt 0 1
      [5; 2 ^ 63]%Z 10 7 4 Toy.w0
    = (mkWorld (heap Toy.w0)
         ["cannot forward; error raised :  Overflow when unpacking long"] 1,
       Ok EmptyList) ∧
  LLMForwardLight_call Toy.small Toy.one_prompt 0 1 [5; 2 ^ 63]%Z 10 7 4
      Toy.w0
    = (after_calls Toy.w0 1,
       Raise (RuntimeError "Overflow when unpacking long")).
Proof.
  edestruct (overflowing_candidate_is_caught Toy.small Toy.one_prompt 0 1
               [5; 2 ^ 63]%Z 10 7 4 Toy.w0)
    with (pre := [5%Z]) (t := (2 ^ 63)%Z) (rest := @nil Z)
    as (H1 & H2);
    [vm_compute; lia | reflexivity | reflexivity | reflexivity | reflexivity
    | reflexivity | reflexivity |].
  split; [exact H1 | exact H2].
Defined.

Lemma batch_rows_scored_independently_witness :
  ∃ sp sp' sprow,
    (LLM_get_probs Toy.sound ["ab"; "cd"] Toy.w0).2 = Ok sp ∧
    (LLM_get_probs Toy.sound ["ab"] Toy.w0).2 = Ok sp' ∧
    sp !! 0 = Some sprow ∧ sp' !! 0 = Some sprow.
Proof.
  edestruct (batch_rows_scored_independently Toy.sound ["ab"; "cd"] ["ab"])
    with (w := Toy.w0) (w' := Toy.w0) (i := 0) (i' := 0)
    as (sp & sp' & sprow & H1 & H2 & _ & _ & R1 & R2);
    [reflexivity | reflexivity | reflexivity | reflexivity | reflexivity
    | reflexivity | reflexivity | reflexivity | reflexivity | reflexivity |].
  by exists sp, sp', sprow.
Defined.

Lemma forward_extractor_rows_coincide_witness :
  ∃ sp r, (LLMForward_get_probs Toy.small ([[1; 2]; [3; 4]], [[1; 1]; [1; 1]])
             Toy.w0).2 = Ok sp ∧
          sp !! 0 = Some r ∧ sp !! 1 = Some r.
Proof.
  edestruct (forward_extractor_rows_coincide Toy.small
               ([[1; 2]; [3; 4]], [[1; 1]; [1; 1]])) with (w := Toy.w0)
    as (sp & H & Hlen & Heq);
    [reflexivity | reflexivity | reflexivity | vm_compute; lia |].
  destruct (lookup_lt_is_Some_2 sp 0) as [r0 H0]; [rewrite Hlen; vm_compute; lia|].
  destruct (lookup_lt_is_Some_2 sp 1) as [r1 H1]; [rewrite Hlen; vm_compute; lia|].
  exists sp, r0. rewrite H. split; [reflexivity|]. split; [exact H0|].
  by rewrite (Heq 0 1 r0 r1 H0 H1).
Defined.

Lemma get_probs_has_no_handler_witness :
  (LLM_get_probs (Toy.small_failing 0) Toy.prompts Toy.w0).2
    = Raise Toy.out_of_memory ∧
  (LLMForward_get_probs (Toy.small_failing 0) Toy.one_prompt Toy.w0).2
    = Raise Toy.out_of_memory.
Proof.
  edestruct (get_probs_has_no_handler (Toy.small_failing 0) Toy.prompts)
    with (tokenized_input := Toy.one_prompt) (w := Toy.w0)
    as (H1 & _ & H3); [reflexivity | reflexivity | reflexivity |].
  by rewrite H1, H3.
Defined.

Lemma extractors_on_empty_batch_witness :
  LLM_get_probs Toy.small [] Toy.w0 = (after_calls Toy.w0 1, Ok []) ∧
  ∃ msg, LLMForward_get_probs Toy.small ([], []) Toy.w0
           = (after_calls Toy.w0 1, Raise (IndexError msg)).
Proof.
  edestruct (extractors_on_empty_batch Toy.small [] [] []) with (w := Toy.w0)
    as (H1 & _ & msg & H3); [reflexivity | reflexivity | reflexivity |].
  split; [exact H1 | by exists msg].
Defined.

End MoreInstances.
